(** * Graph traits and the DOT export pipeline

    A shallow embedding of [traits.go] (package [graph]) and of the DOT
    renderer of package [draw]: trait options, the statement builder
    [generateDOT], the renderer [renderDOT] with its [text/template]
    document, and the entry point [DOT]. *)

From Stdlib Require Import ZArith List String Ascii Permutation Sorted.
From stdpp Require Import base option list gmap strings pretty sorting.

Set Warnings "-register-all".

Open Scope string_scope.
Open Scope Z_scope.
Open Scope list_scope.

(** ** Package graph: traits and their functional options *)

Module graph.

Record Traits : Type := mkTraits {
  IsDirected : bool;
  IsAcyclic : bool;
  IsWeighted : bool;
  IsRooted : bool
}.

(** The source options are functions on a [Traits] pointer: they update the
    record behind the pointer.  Here an option maps the record before the call to
    the record after it. *)
Definition Directed : Traits → Traits := λ t,
  {| IsDirected := true; IsAcyclic := IsAcyclic t;
     IsWeighted := IsWeighted t; IsRooted := IsRooted t |}.

Definition Acyclic : Traits → Traits := λ t,
  {| IsDirected := IsDirected t; IsAcyclic := true;
     IsWeighted := IsWeighted t; IsRooted := IsRooted t |}.

Definition Weighted : Traits → Traits := λ t,
  {| IsDirected := IsDirected t; IsAcyclic := IsAcyclic t;
     IsWeighted := true; IsRooted := IsRooted t |}.

Definition Rooted : Traits → Traits := λ t,
  {| IsDirected := IsDirected t; IsAcyclic := IsAcyclic t;
     IsWeighted := IsWeighted t; IsRooted := true |}.

(** [Tree] calls [Acyclic()(t)] and then [Rooted()(t)] on the same pointer. *)
Definition Tree : Traits → Traits := λ t,
  let t1 := Acyclic t in
  let t2 := Rooted t1 in
  t2.

(** Applying a sequence of options, first to last, as a constructor that
    receives a variadic list of options does. *)
Definition applyOptions (options : list (Traits → Traits)) (t : Traits) : Traits :=
  fold_left (λ acc option, option acc) options t.

(** The five options this file exports. *)
Definition isTraitOption (f : Traits → Traits) : Prop :=
  f = Directed ∨ f = Acyclic ∨ f = Weighted ∨ f = Rooted ∨ f = Tree.

(** Flag-wise order: every flag set in [t1] is set in [t2]. *)
Definition flagsIncluded (t1 t2 : Traits) : Prop :=
  (IsDirected t1 = true → IsDirected t2 = true) ∧
  (IsAcyclic t1 = true → IsAcyclic t2 = true) ∧
  (IsWeighted t1 = true → IsWeighted t2 = true) ∧
  (IsRooted t1 = true → IsRooted t2 = true).

(** Modelled from the spec: the edge data the export consumes.  The source
    reads [edge.Properties.Weight] and [edge.Properties.Attributes]; the
    declarations of [Edge] and [EdgeProperties] live in another file of the
    package.  The spec gives an integer weight and a mapping of attribute
    name to attribute value.  The weight is a Go [int]; the export copies
    and prints it and computes nothing with it, so it is kept as an
    integer without a bound. *)
Record EdgeProperties : Type := mkEdgeProperties {
  Weight : Z;
  Attributes : gmap string string
}.

Record Edge (K : Type) : Type := mkEdge {
  Source : K;
  Target : K;
  Properties : EdgeProperties
}.
Arguments mkEdge {K} Source Target Properties.
Arguments Source {K} e.
Arguments Target {K} e.
Arguments Properties {K} e.

(** The traits a graph starts from before its options are applied: the
    zero value of [Traits]. *)
Definition defaultTraits : Traits := mkTraits false false false false.

End graph.

(** ** Go run-time values, errors and writers *)

Module golang.

(** Go [error] values: [errors.New]-style leaves and [fmt.Errorf] wrappers
    built with the [%w] verb.  A nil error is [None : option error]. *)
Inductive error : Type :=
| errorString (msg : string)
| wrapError (msg : string) (err : error).

Definition Error (e : error) : string :=
  match e with
  | errorString msg => msg
  | wrapError msg _ => msg
  end.

Definition Unwrap (e : error) : option error :=
  match e with
  | errorString _ => None
  | wrapError _ err => Some err
  end.

(** [fmt.Errorf(prefix + "%w", err)]: the message is the prefix followed by
    the message of [err], and [err] is kept for [errors.Unwrap]. *)
Definition Errorf (prefix : string) (err : error) : error :=
  wrapError (prefix +:+ Error err) err.

(** Dynamic values as reflection sees them, by kind.  [VNil] is the nil
    interface; [VInt] stands for every integer kind; a float or complex
    number is given by what the template engine reads of it, whether it is
    zero and its [%v] form; a pointer is nil or has an address (as [fmt]
    prints it) and a pointee; a channel or a function is nil or has an
    address; struct fields carry their names; a map is the list of its
    entries in whatever order the run time enumerates them.  Values of
    types with a [String] or [Error] method, which [fmt] prints through
    the method, and unsafe pointers are not represented. *)
Inductive value : Type :=
| VNil
| VInt (n : Z)
| VString (s : string)
| VBool (b : bool)
| VStruct (fields : list (string * value))
| VSlice (elems : list value)
| VMap (entries : list (string * value))
| VFloat (zero : bool) (text : string)
| VComplex (zero : bool) (text : string)
| VPointer (target : option (string * value))
| VChan (addr : option string)
| VFunc (addr : option string)
| VArray (elems : list value).

(** Entries ordered by key, byte-wise, as package [fmtsort] orders string
    keys. *)
Definition keyLe {A} (e1 e2 : string * A) : Prop := String.le (fst e1) (fst e2).

Definition sortEntries {A} (es : list (string * A)) : list (string * A) :=
  merge_sort keyLe es.

(** Strictly ascending keys. *)
Definition keyLt {A} (e1 e2 : string * A) : Prop :=
  String.ltb (fst e1) (fst e2) = true.

Fixpoint joinWith (sep : string) (parts : list string) : string :=
  match parts with
  | [] => EmptyString
  | [p] => p
  | p :: rest => p +:+ sep +:+ joinWith sep rest
  end.

(** The [%v] form of an operand nested inside another value. *)
Fixpoint formatValue (v : value) : string :=
  match v with
  | VNil => "<nil>"
  | VInt n => pretty n
  | VString s => s
  | VBool b => if b then "true" else "false"
  | VStruct fields =>
      "{" +:+ joinWith " " (map (λ f, formatValue (snd f)) fields) +:+ "}"
  | VSlice elems =>
      "[" +:+ joinWith " " (map formatValue elems) +:+ "]"
  | VMap entries =>
      "map[" +:+
      joinWith " " (map (λ e, fst e +:+ ":" +:+ snd e)
                        (sortEntries (map (λ e, (fst e, formatValue (snd e))) entries)))
      +:+ "]"
  | VFloat _ text => text
  | VComplex _ text => text
  | VPointer None => "<nil>"
  | VPointer (Some (addr, _)) => addr
  | VChan None => "<nil>"
  | VChan (Some addr) => addr
  | VFunc None => "<nil>"
  | VFunc (Some addr) => addr
  | VArray elems =>
      "[" +:+ joinWith " " (map formatValue elems) +:+ "]"
  end.

(** Follow a pointer down to what it points at; a nil pointer stays. *)
Fixpoint indirect (v : value) : value :=
  match v with
  | VPointer (Some (_, pointee)) => indirect pointee
  | _ => v
  end.

(** The zero value of the dynamic type of [v]. *)
Fixpoint zeroValue (v : value) : value :=
  match v with
  | VNil => VNil
  | VInt _ => VInt 0
  | VString _ => VString EmptyString
  | VBool _ => VBool false
  | VStruct fields => VStruct (map (λ f, (fst f, zeroValue (snd f))) fields)
  | VSlice _ => VSlice []
  | VMap _ => VMap []
  | VFloat _ _ => VFloat true "0"
  | VComplex _ _ => VComplex true "(0+0i)"
  | VPointer _ => VPointer None
  | VChan _ => VChan None
  | VFunc _ => VFunc None
  | VArray elems => VArray (map zeroValue elems)
  end.

(** A type whose values can be vertex keys (the constraint [comparable]):
    [box] is the conversion to [interface{}] that storing a key in a
    statement performs. *)
Class comparable (K : Type) := box : K → value.

(** What the export relies on for a key type: distinct keys stay distinct
    when boxed, and a boxed key is never the nil interface (key types here
    are not interface types). *)
Class comparableLaws (K : Type) `{comparable K} : Prop := {
  box_inj : Inj (=) (=) (box (K := K));
  box_not_nil : ∀ k : K, box k ≠ VNil
}.

#[global] Instance int_comparable : comparable Z := VInt.
#[global] Instance string_comparable : comparable string := VString.
#[global] Instance bool_comparable : comparable bool := VBool.

(** A struct key type, [struct{ X, Y int }]. *)
Record point : Type := mkPoint { X : Z; Y : Z }.

#[global] Instance point_comparable : comparable point :=
  λ p, VStruct [("X", VInt (X p)); ("Y", VInt (Y p))].

(** A channel key type, [chan int]: a channel that is not nil, known by its
    address. *)
Record channel : Type := mkChannel { chanAddr : string }.

#[global] Instance channel_comparable : comparable channel :=
  λ c, VChan (Some (chanAddr c)).

(** [io.Writer]: one [Write] call takes the sink to its next state and may
    report an error. *)
Class Writer (W : Type) := Write : W → string → W * option error.

(** Issue the [Write] calls of [chunks] in order, stopping at the first one
    that fails. *)
Fixpoint writeAll {W} `{Writer W} (w : W) (chunks : list string) : W * option error :=
  match chunks with
  | [] => (w, None)
  | c :: rest =>
      match Write w c with
      | (w', Some e) => (w', Some e)
      | (w', None) => writeAll w' rest
      end
  end.

(** [bytes.Buffer]: every write is appended and succeeds. *)
Record Buffer : Type := mkBuffer { bufBytes : string }.

#[global] Instance Buffer_Writer : Writer Buffer :=
  λ b p, (mkBuffer (bufBytes b +:+ p), None).

(** A sink that only counts the [Write] calls it receives. *)
Record CallCounter : Type := mkCallCounter { calls : nat }.

#[global] Instance CallCounter_Writer : Writer CallCounter :=
  λ c _, (mkCallCounter (S (calls c)), None).

(** A sink with bounded room: a write that does not fit is rejected and
    leaves the sink as it was. *)
Record LimitedSink : Type := mkLimitedSink { sinkBytes : string; sinkRoom : nat }.

Definition errNoSpace : error := errorString "no space left on device".

#[global] Instance LimitedSink_Writer : Writer LimitedSink :=
  λ s p,
    if (String.length p <=? sinkRoom s)%nat
    then (mkLimitedSink (sinkBytes s +:+ p) (sinkRoom s - String.length p), None)
    else (s, Some errNoSpace).

End golang.

(** ** Package text/template: the fragment the DOT template is written in

    The template engine belongs to the Go standard library; it is modelled
    here after its documented behaviour, for the fragment the renderer
    uses: text, field and variable actions, [if] and [range] with [else]
    and [end], and variable declarations.  Anything outside the fragment
    (functions, pipes, literals, comments, trim markers) is rejected by
    [Parse]. *)

Module template.
Import golang.

Inductive result (A : Type) : Type :=
| Ok (a : A)
| Err (e : error).
Arguments Ok {A} a.
Arguments Err {A} e.

#[global] Instance result_ret : MRet result := λ A a, Ok a.
#[global] Instance result_bind : MBind result := λ A B f r,
  match r with
  | Ok a => f a
  | Err e => Err e
  end.

(** *** Lexer *)

Inductive token : Type :=
| TSpace
| TDot
| TField (name : string)
| TVariable (name : string)
| TIdentifier (name : string)
| TDeclare
| TComma.

Inductive item : Type :=
| IText (text : string)
| IAction (tokens : list token).

(** The token being read inside an action. *)
Inductive partial : Type :=
| PNone
| PField (name : string)
| PVariable (name : string)
| PIdentifier (name : string)
| PColon.

Inductive lexState : Type :=
| LText (text : string)
| LAction (cur : partial) (tokens : list token).

Definition isDigit (c : ascii) : bool :=
  let n := nat_of_ascii c in ((48 <=? n) && (n <=? 57))%nat.

Definition isLetter (c : ascii) : bool :=
  let n := nat_of_ascii c in
  (((65 <=? n) && (n <=? 90)) || ((97 <=? n) && (n <=? 122)) || (n =? 95))%nat.

Definition isAlphaNumeric (c : ascii) : bool := isLetter c || isDigit c.

Definition snoc (s : string) (c : ascii) : string := s +:+ String c EmptyString.

(** Close the token being read; the character that follows is a terminator. *)
Definition flush (p : partial) : result (list token) :=
  match p with
  | PNone => Ok []
  | PField name => if decide (name = EmptyString) then Ok [TDot] else Ok [TField name]
  | PVariable name => Ok [TVariable name]
  | PIdentifier name => Ok [TIdentifier name]
  | PColon => Err (errorString "expected :=")
  end.

(** One character inside an action. *)
Definition lexInsideAction (p : partial) (tokens : list token) (c : ascii)
  : result (partial * list token) :=
  if isAlphaNumeric c then
    match p with
    | PNone =>
        if isDigit c then Err (errorString "bad number syntax")
        else Ok (PIdentifier (String c EmptyString), tokens)
    | PField name =>
        if decide (name = EmptyString) then
          if isDigit c then Err (errorString "bad number syntax")
          else Ok (PField (String c EmptyString), tokens)
        else Ok (PField (snoc name c), tokens)
    | PVariable name => Ok (PVariable (snoc name c), tokens)
    | PIdentifier name => Ok (PIdentifier (snoc name c), tokens)
    | PColon => Err (errorString "expected :=")
    end
  else if Ascii.is_space c then
    ts ← flush p; Ok (PNone, tokens ++ ts ++ [TSpace])
  else if decide (c = "."%char) then
    ts ← flush p; Ok (PField EmptyString, tokens ++ ts)
  else if decide (c = "$"%char) then
    match p with
    | PNone => Ok (PVariable "$", tokens)
    | _ => Err (errorString "bad character")
    end
  else if decide (c = ","%char) then
    ts ← flush p; Ok (PNone, tokens ++ ts ++ [TComma])
  else if decide (c = ":"%char) then
    ts ← flush p; Ok (PColon, tokens ++ ts)
  else if decide (c = "="%char) then
    match p with
    | PColon => Ok (PNone, tokens ++ [TDeclare])
    | _ => Err (errorString "unexpected = in action")
    end
  else Err (errorString "unrecognized character in action").

Definition pushText (text : string) (items : list item) : list item :=
  if decide (text = EmptyString) then items else items ++ [IText text].

(** The scanner: text up to the left delimiter, then an action up to the
    right delimiter. *)
Fixpoint lex (st : lexState) (items : list item) (input : string) : result (list item) :=
  match input with
  | EmptyString =>
      match st with
      | LText text => Ok (pushText text items)
      | LAction _ _ => Err (errorString "unclosed action")
      end
  | String c rest =>
      match st with
      | LText text =>
          match rest with
          | String c2 rest2 =>
              if decide (c = "{"%char ∧ c2 = "{"%char)
              then lex (LAction PNone []) (pushText text items) rest2
              else lex (LText (snoc text c)) items rest
          | EmptyString => lex (LText (snoc text c)) items rest
          end
      | LAction p tokens =>
          match rest with
          | String c2 rest2 =>
              if decide (c = "}"%char ∧ c2 = "}"%char)
              then
                match flush p with
                | Ok ts => lex (LText EmptyString) (items ++ [IAction (tokens ++ ts)]) rest2
                | Err e => Err e
                end
              else
                match lexInsideAction p tokens c with
                | Ok (p', tokens') => lex (LAction p' tokens') items rest
                | Err e => Err e
                end
          | EmptyString => Err (errorString "unclosed action")
          end
      end
  end.

(** *** Parse tree *)

Inductive operand : Type :=
| ODot
| OField (chain : list string)
| OVariable (name : string) (chain : list string).

Record pipeline : Type := mkPipeline {
  Decl : list string;
  Cmd : operand
}.

Inductive node : Type :=
| NText (text : string)
| NAction (pipe : pipeline)
| NIf (pipe : pipeline) (list1 : list node) (elseList : list node)
| NRange (pipe : pipeline) (list1 : list node) (elseList : list node).

Record Template : Type := mkTemplate {
  Name : string;
  Root : list node
}.

(** *** Parser *)

Fixpoint skipSpace (ts : list token) : list token :=
  match ts with
  | TSpace :: rest => skipSpace rest
  | _ => ts
  end.

Fixpoint fieldChain (ts : list token) : list string * list token :=
  match ts with
  | TField name :: rest =>
      let '(chain, rest') := fieldChain rest in (name :: chain, rest')
  | _ => ([], ts)
  end.

Definition expectEnd (ts : list token) : result unit :=
  match skipSpace ts with
  | [] => Ok ()
  | _ => Err (errorString "unexpected token after operand")
  end.

Definition useVar (vars : list string) (name : string) : result unit :=
  if decide (name ∈ vars) then Ok ()
  else Err (errorString ("undefined variable " +:+ name)).

Definition parseOperand (vars : list string) (ts : list token) : result operand :=
  match skipSpace ts with
  | [] => Err (errorString "missing value")
  | TDot :: rest => _ ← expectEnd rest; Ok ODot
  | TField name :: rest =>
      let '(chain, rest') := fieldChain rest in
      _ ← expectEnd rest'; Ok (OField (name :: chain))
  | TVariable name :: rest =>
      _ ← useVar vars name;
      let '(chain, rest') := fieldChain rest in
      _ ← expectEnd rest'; Ok (OVariable name chain)
  | TIdentifier name :: _ => Err (errorString ("function not defined: " +:+ name))
  | _ => Err (errorString "unexpected token in operand")
  end.

(** Declarations in front of a pipeline: one variable, or two in a [range]. *)
Definition parseDecl (context : string) (ts : list token)
  : result (list string * list token) :=
  match skipSpace ts with
  | TVariable v :: rest =>
      match skipSpace rest with
      | TDeclare :: rest1 => Ok ([v], rest1)
      | TComma :: rest1 =>
          if decide (context = "range") then
            match skipSpace rest1 with
            | TVariable v2 :: rest2 =>
                match skipSpace rest2 with
                | TDeclare :: rest3 => Ok ([v; v2], rest3)
                | _ => Err (errorString "too many declarations in range")
                end
            | _ => Err (errorString "range can only initialize variables")
            end
          else Err (errorString ("too many declarations in " +:+ context))
      | _ => Ok ([], ts)
      end
  | _ => Ok ([], ts)
  end.

Definition parsePipeline (context : string) (vars : list string) (ts : list token)
  : result pipeline :=
  '(decl, rest) ← parseDecl context ts;
  cmd ← parseOperand (vars ++ decl) rest;
  Ok (mkPipeline decl cmd).

Inductive action : Type :=
| AEnd
| AElse
| AIf (pipe : pipeline)
| ARange (pipe : pipeline)
| APipeline (pipe : pipeline).

Definition parseAction (vars : list string) (ts : list token) : result action :=
  match skipSpace ts with
  | TIdentifier name :: rest =>
      if decide (name = "end") then _ ← expectEnd rest; Ok AEnd
      else if decide (name = "else") then _ ← expectEnd rest; Ok AElse
      else if decide (name = "if") then p ← parsePipeline "if" vars rest; Ok (AIf p)
      else if decide (name = "range") then p ← parsePipeline "range" vars rest; Ok (ARange p)
      else Err (errorString ("function not defined: " +:+ name))
  | _ => p ← parsePipeline "command" vars ts; Ok (APipeline p)
  end.

Inductive blockKind : Type := BIf | BRange.

(** An open control structure: its pipeline, the variables in scope and the
    node list that were current where it opened, and its first list once an
    [else] has been read. *)
Record frame : Type := mkFrame {
  fKind : blockKind;
  fPipe : pipeline;
  fVars : list string;
  fOuter : list node;
  fList : option (list node)
}.

Definition closeFrame (f : frame) (cur : list node) : node :=
  let '(list1, elseList) :=
    match fList f with
    | None => (cur, [])
    | Some l => (l, cur)
    end in
  match fKind f with
  | BIf => NIf (fPipe f) list1 elseList
  | BRange => NRange (fPipe f) list1 elseList
  end.

Fixpoint parseItems (stack : list frame) (cur : list node) (vars : list string)
    (items : list item) : result (list node) :=
  match items with
  | [] =>
      match stack with
      | [] => Ok cur
      | _ :: _ => Err (errorString "unexpected EOF")
      end
  | IText text :: rest => parseItems stack (cur ++ [NText text]) vars rest
  | IAction ts :: rest =>
      match parseAction vars ts with
      | Err e => Err e
      | Ok (APipeline p) => parseItems stack (cur ++ [NAction p]) (vars ++ Decl p) rest
      | Ok (AIf p) =>
          parseItems (mkFrame BIf p vars cur None :: stack) [] (vars ++ Decl p) rest
      | Ok (ARange p) =>
          parseItems (mkFrame BRange p vars cur None :: stack) [] (vars ++ Decl p) rest
      | Ok AElse =>
          match stack with
          | f :: stack' =>
              match fList f with
              | None =>
                  parseItems
                    (mkFrame (fKind f) (fPipe f) (fVars f) (fOuter f) (Some cur) :: stack')
                    [] vars rest
              | Some _ => Err (errorString "unexpected {{else}}")
              end
          | [] => Err (errorString "unexpected {{else}}")
          end
      | Ok AEnd =>
          match stack with
          | f :: stack' => parseItems stack' (fOuter f ++ [closeFrame f cur]) (fVars f) rest
          | [] => Err (errorString "unexpected {{end}}")
          end
      end
  end.

(** [template.New(name)] and the [Parse(text)] method of a template. *)
Definition New (name : string) : Template := mkTemplate name [].

Definition Parse (t : Template) (text : string) : result Template :=
  items ← lex (LText EmptyString) [] text;
  root ← parseItems [] [] ["$"] items;
  Ok (mkTemplate (Name t) root).

(** *** Execution

    A run is the sequence of [Write] calls it issues (one per text node and
    one per printed action) together with its outcome. *)

Record Exec (A : Type) : Type := mkExec {
  output : list string;
  outcome : result A
}.
Arguments mkExec {A} output outcome.
Arguments output {A} e.
Arguments outcome {A} e.

#[global] Instance Exec_ret : MRet Exec := λ A a, mkExec [] (Ok a).
#[global] Instance Exec_bind : MBind Exec := λ A B f m,
  match outcome m with
  | Ok a => mkExec (output m ++ output (f a)) (outcome (f a))
  | Err e => mkExec (output m) (Err e)
  end.

Definition emit (chunk : string) : Exec unit := mkExec [chunk] (Ok ()).

Definition lift {A} (r : result A) : Exec A := mkExec [] r.

(** The variable stack, top first. *)
Definition varStack : Type := list (string * value).

Fixpoint varValue (vars : varStack) (name : string) : result value :=
  match vars with
  | [] => Err (errorString ("undefined variable: " +:+ name))
  | (n, v) :: rest => if decide (n = name) then Ok v else varValue rest name
  end.

Definition push (vars : varStack) (name : string) (v : value) : varStack :=
  (name, v) :: vars.

Fixpoint structField (fields : list (string * value)) (name : string) : option value :=
  match fields with
  | [] => None
  | (n, v) :: rest => if decide (n = name) then Some v else structField rest name
  end.

Definition isExported (name : string) : bool :=
  match name with
  | String c _ => let n := nat_of_ascii c in ((65 <=? n) && (n <=? 90))%nat
  | EmptyString => false
  end.

(** A field of a struct, or of the struct a pointer leads to.  Field access
    on any other receiver is an error here (map receivers are outside the
    fragment). *)
Definition evalField (receiver : value) (name : string) : result value :=
  match indirect receiver with
  | VStruct fields =>
      match structField fields name with
      | Some v =>
          if isExported name then Ok v
          else Err (errorString (name +:+ " is an unexported field"))
      | None => Err (errorString ("can't evaluate field " +:+ name))
      end
  | VNil => Err (errorString ("nil pointer evaluating " +:+ name))
  | _ => Err (errorString ("can't evaluate field " +:+ name))
  end.

Fixpoint evalFieldChain (receiver : value) (chain : list string) : result value :=
  match chain with
  | [] => Ok receiver
  | name :: rest => v ← evalField receiver name; evalFieldChain v rest
  end.

Definition evalOperand (dot : value) (vars : varStack) (op : operand) : result value :=
  match op with
  | ODot => Ok dot
  | OField chain => evalFieldChain dot chain
  | OVariable name chain => v ← varValue vars name; evalFieldChain v chain
  end.

(** The value of a pipeline, and the stack after its declarations are
    pushed with that value. *)
Definition evalPipeline (dot : value) (vars : varStack) (pipe : pipeline)
  : result (value * varStack) :=
  v ← evalOperand dot vars (Cmd pipe);
  Ok (v, fold_left (λ acc name, push acc name v) (Decl pipe) vars).

(** Truth of a value: false for nil (interface, pointer, channel,
    function), zero numbers, [false], and strings, arrays, slices and maps
    of length zero; a struct is always true. *)
Definition isTrue (v : value) : bool :=
  match v with
  | VNil => false
  | VInt n => negb (n =? 0)
  | VString s => negb (String.length s =? 0)%nat
  | VBool b => b
  | VStruct _ => true
  | VSlice elems => negb (length elems =? 0)%nat
  | VMap entries => negb (length entries =? 0)%nat
  | VFloat zero _ => negb zero
  | VComplex zero _ => negb zero
  | VPointer target => bool_decide (is_Some target)
  | VChan addr => bool_decide (is_Some addr)
  | VFunc addr => bool_decide (is_Some addr)
  | VArray elems => negb (length elems =? 0)%nat
  end.

(** The text an action writes for a value that can be printed: a pointer
    is followed to its pointee first. *)
Definition displayText (v : value) : string :=
  match v with
  | VNil => "<no value>"
  | _ => formatValue (indirect v)
  end.

(** [printableValue]: what is handed to [fmt.Fprint], here as the text it
    writes, or nothing for a channel or a function, which cannot be
    printed. *)
Definition printableValue (v : value) : option string :=
  match indirect v with
  | VChan _ => None
  | VFunc _ => None
  | _ => Some (displayText v)
  end.

Definition isPrintable (v : value) : bool :=
  bool_decide (is_Some (printableValue v)).

(** The error of a run that meets such a value.  The message of the engine
    also names the template, the action and the type of the value; one
    error value stands for all of them here. *)
Definition errCantPrint : error := errorString "can't print value".

(** [printValue]: write the printable form of a value, or fail. *)
Definition printValue (v : value) : Exec unit :=
  match printableValue v with
  | Some text => emit text
  | None => mkExec [] (Err errCantPrint)
  end.

(** The stack seen by one iteration: the top variable is the element, the
    one below it (if declared) the index or key. *)
Definition setIterVars (decl : list string) (index elem : value) (vars : varStack)
  : varStack :=
  match decl with
  | [] => vars
  | [v] => push vars v elem
  | k :: v :: _ => push (push vars k index) v elem
  end.

(** The (index, element) pairs a [range] visits: an array or a slice in
    index order, a map in sorted key order; a pointer is followed first.
    Receiving from a channel that is not nil, and ranging over an integer
    or a function, are outside the fragment. *)
Definition rangeItems (v : value) : result (list (value * value)) :=
  match indirect v with
  | VSlice elems => Ok (imap (λ i e, (VInt (Z.of_nat i), e)) elems)
  | VArray elems => Ok (imap (λ i e, (VInt (Z.of_nat i), e)) elems)
  | VMap entries => Ok (map (λ e, (VString (fst e), snd e)) (sortEntries entries))
  | VNil => Ok []
  | VChan None => Ok []
  | _ => Err (errorString "range can't iterate over value")
  end.

Section walk_lists.
Variable walk : node → value → varStack → Exec varStack.

Fixpoint walkList (ns : list node) (dot : value) (vars : varStack) : Exec varStack :=
  match ns with
  | [] => mret vars
  | n :: rest => vars' ← walk n dot vars; walkList rest dot vars'
  end.

Fixpoint iterate (body : list node) (decl : list string) (vars : varStack)
    (its : list (value * value)) : Exec unit :=
  match its with
  | [] => mret ()
  | (index, elem) :: rest =>
      _ ← walkList body elem (setIterVars decl index elem vars);
      iterate body decl vars rest
  end.

End walk_lists.

Fixpoint walk (n : node) (dot : value) (vars : varStack) {struct n} : Exec varStack :=
  match n with
  | NText text => _ ← emit text; mret vars
  | NAction pipe =>
      '(v, vars') ← lift (evalPipeline dot vars pipe);
      match Decl pipe with
      | [] => _ ← printValue v; mret vars'
      | _ :: _ => mret vars'
      end
  | NIf pipe list1 elseList =>
      '(v, vars') ← lift (evalPipeline dot vars pipe);
      _ ← walkList walk (if isTrue v then list1 else elseList) dot vars';
      mret vars
  | NRange pipe list1 elseList =>
      '(v, vars') ← lift (evalPipeline dot vars pipe);
      its ← lift (rangeItems v);
      match its with
      | [] => _ ← walkList walk elseList dot vars'; mret vars
      | _ :: _ => _ ← iterate walk list1 (Decl pipe) vars its; mret vars
      end
  end.

(** [Execute]: walk the tree with the data as dot and as [$], issue the
    writes against the sink and stop at the first one that fails. *)
Definition Execute {W} `{Writer W} (t : Template) (w : W) (data : value)
  : W * option error :=
  let run := walkList walk (Root t) data [("$", data)] in
  match writeAll w (output run) with
  | (w', Some e) => (w', Some e)
  | (w', None) =>
      (w', match outcome run with
           | Ok _ => None
           | Err e => Some e
           end)
  end.

End template.

(** ** The graph interface as the export reads it

    Modelled from the spec: the interface [graph.Graph] is declared in
    another file of the package.  The export calls two of its methods:
    [Traits()] and [AdjacencyMap()], the latter returning, for every vertex,
    its adjacent vertices with the edge to each, or an error.  A Go map is
    given by the sequence of entries in the order a [range] over it yields
    them on this run. *)

Module Graph.
Import golang.

Definition adjacencyMap (K : Type) : Type := list (K * list (K * graph.Edge K)).

Class Interface (K G : Type) : Type := {
  Traits : G → graph.Traits;
  AdjacencyMap : G → adjacencyMap K * option error
}.

(** A graph given by its traits and by what [AdjacencyMap] returns. *)
Record fixture (K : Type) : Type := mkFixture {
  fixTraits : graph.Traits;
  fixAdjacency : adjacencyMap K;
  fixError : option error
}.
Arguments mkFixture {K} fixTraits fixAdjacency fixError.
Arguments fixTraits {K} f.
Arguments fixAdjacency {K} f.
Arguments fixError {K} f.

#[global] Instance fixture_Interface K : Interface K (fixture K) := {|
  Traits := fixTraits;
  AdjacencyMap := λ g, (fixAdjacency g, fixError g)
|}.

End Graph.

(** ** Package draw *)

Module draw.
Import golang template.

Definition nl : string := String "010"%char EmptyString.
Definition tab : string := String "009"%char EmptyString.
Definition dquote : string := String "034"%char EmptyString.

Definition dotTemplate : string := Eval cbv in
  "strict {{.GraphType}} {" +:+ nl +:+
  "{{range $s := .Statements}}" +:+ nl +:+
  tab +:+ "{{.Source}} {{if .Target}}{{$.EdgeOperator}} {{.Target}} [ {{range $k, $v := .Attributes}}{{$k}}=" +:+ dquote +:+ "{{$v}}" +:+ dquote +:+ ", {{end}} weight={{.Weight}} ]{{end}};" +:+ nl +:+
  "{{end}}" +:+ nl +:+
  "}" +:+ nl.

Record statement : Type := mkStatement {
  Source : value;
  Target : value;
  Weight : Z;
  Attributes : gmap string string
}.

Record description : Type := mkDescription {
  GraphType : string;
  EdgeOperator : string;
  Statements : list statement
}.

(** The values reflection finds behind a [statement] and a [description]. *)
Definition reflectAttributes (attrs : gmap string string) : value :=
  VMap (map (λ e, (fst e, VString (snd e))) (map_to_list attrs)).

Definition reflectStatement (s : statement) : value :=
  VStruct [("Source", Source s); ("Target", Target s);
           ("Weight", VInt (Weight s));
           ("Attributes", reflectAttributes (Attributes s))].

Definition reflectDescription (d : description) : value :=
  VStruct [("GraphType", VString (GraphType d));
           ("EdgeOperator", VString (EdgeOperator d));
           ("Statements", VSlice (map reflectStatement (Statements d)))].

(** [desc.Statements = append(desc.Statements, stmt)] *)
Definition appendStatement (desc : description) (stmt : statement) : description :=
  {| GraphType := GraphType desc;
     EdgeOperator := EdgeOperator desc;
     Statements := Statements desc ++ [stmt] |}.

Section export.
Context {K G : Type} `{comparable K} `{Graph.Interface K G}.

Definition generateDOT (g : G) : description * option error :=
  let desc := {| GraphType := "graph"; EdgeOperator := "--"; Statements := [] |} in
  let desc :=
    if graph.IsDirected (Graph.Traits g)
    then {| GraphType := "digraph"; EdgeOperator := "->";
            Statements := Statements desc |}
    else desc in
  let '(adjacencyMap, err) := Graph.AdjacencyMap g in
  match err with
  | Some err => (desc, Some err)
  | None =>
      let desc :=
        fold_left (λ desc '(vertex, adjacencies),
          if (length adjacencies =? 0)%nat then
            let stmt := {| Source := box vertex; Target := VNil;
                           Weight := 0; Attributes := ∅ |} in
            appendStatement desc stmt
          else
            fold_left (λ desc '(adjacency, edge),
              let stmt := {| Source := box vertex;
                             Target := box adjacency;
                             Weight := graph.Weight (graph.Properties edge);
                             Attributes := graph.Attributes (graph.Properties edge) |} in
              appendStatement desc stmt) adjacencies desc)
          adjacencyMap desc in
      (desc, None)
  end.

Definition renderDOT {W} `{Writer W} (w : W) (d : description) : W * option error :=
  match Parse (New "dotTemplate") dotTemplate with
  | Err err => (w, Some (Errorf "failed to parse template: " err))
  | Ok tpl => Execute tpl w (reflectDescription d)
  end.

Definition DOT {W} `{Writer W} (g : G) (w : W) : W * option error :=
  let '(desc, err) := generateDOT g in
  match err with
  | Some err => (w, Some (Errorf "failed to generate DOT description: " err))
  | None => renderDOT w desc
  end.

(** The keyword and the operator that go with the directedness trait. *)
Definition graphTypeOf (g : G) : string :=
  if graph.IsDirected (Graph.Traits g) then "digraph" else "graph".

Definition edgeOperatorOf (g : G) : string :=
  if graph.IsDirected (Graph.Traits g) then "->" else "--".

End export.

(** *** The parse tree of [dotTemplate] *)

Definition fieldAction (name : string) : node :=
  NAction (mkPipeline [] (OField [name])).

Definition attributeNodes : list node :=
  [NAction (mkPipeline [] (OVariable "$k" []));
   NText ("=" +:+ dquote);
   NAction (mkPipeline [] (OVariable "$v" []));
   NText (dquote +:+ ", ")].

Definition edgeNodes : list node :=
  [NAction (mkPipeline [] (OVariable "$" ["EdgeOperator"]));
   NText " ";
   fieldAction "Target";
   NText " [ ";
   NRange (mkPipeline ["$k"; "$v"] (OField ["Attributes"])) attributeNodes [];
   NText " weight=";
   fieldAction "Weight";
   NText " ]"].

Definition statementNodes : list node :=
  [NText (nl +:+ tab);
   fieldAction "Source";
   NText " ";
   NIf (mkPipeline [] (OField ["Target"])) edgeNodes [];
   NText (";" +:+ nl)].

Definition dotTree : list node :=
  [NText "strict ";
   fieldAction "GraphType";
   NText (" {" +:+ nl);
   NRange (mkPipeline ["$s"] (OField ["Statements"])) statementNodes [];
   NText (nl +:+ "}" +:+ nl)].

(** *** The writes a rendering issues, in closed form *)

(** The attributes in the order the template visits them. *)
Definition sortedAttributes (attrs : gmap string string) : list (string * string) :=
  sortEntries (map_to_list attrs).

Definition attributeChunks (e : string * string) : list string :=
  [fst e; "=" +:+ dquote; snd e; dquote +:+ ", "].

Definition edgeChunks (op : string) (s : statement) : list string :=
  [op; " "; displayText (Target s); " [ "] ++
  flat_map attributeChunks (sortedAttributes (Attributes s)) ++
  [" weight="; pretty (Weight s); " ]"].

Definition statementChunks (op : string) (s : statement) : list string :=
  [nl +:+ tab; displayText (Source s); " "] ++
  (if isTrue (Target s) then edgeChunks op s else []) ++
  [";" +:+ nl].

Definition documentChunks (d : description) : list string :=
  ["strict "; GraphType d; " {" +:+ nl] ++
  flat_map (statementChunks (EdgeOperator d)) (Statements d) ++
  [nl +:+ "}" +:+ nl].

(** *** Runs that stop at a value that cannot be printed *)

(** The values the template prints for a statement can all be printed: the
    source, and the target when the template takes it as present. *)
Definition printableStatement (s : statement) : bool :=
  isPrintable (Source s) && (negb (isTrue (Target s)) || isPrintable (Target s)).

Definition printableStatements (stmts : list statement) : bool :=
  forallb printableStatement stmts.

(** The writes of one statement, up to the value that cannot be printed. *)
Definition statementWrites (op : string) (s : statement) : list string :=
  if printableStatement s then statementChunks op s
  else if isPrintable (Source s)
       then [nl +:+ tab; displayText (Source s); " "; op; " "]
       else [nl +:+ tab].

(** The writes of the statements, up to and with those of the first
    statement that cannot be printed. *)
Fixpoint statementsWrites (op : string) (stmts : list statement) : list string :=
  match stmts with
  | [] => []
  | s :: rest =>
      statementWrites op s ++
      (if printableStatement s then statementsWrites op rest else [])
  end.

(** The writes of a run, and the error it ends in when a key cannot be
    printed. *)
Definition documentWrites (d : description) : list string :=
  ["strict "; GraphType d; " {" +:+ nl] ++
  statementsWrites (EdgeOperator d) (Statements d) ++
  (if printableStatements (Statements d) then [nl +:+ "}" +:+ nl] else []).

Definition documentError (d : description) : option error :=
  if printableStatements (Statements d) then None else Some errCantPrint.

(** What [renderDOT] returns for a run: the error of the sink if a write
    was rejected, else the error of the run. *)
Definition finishRun {W} (written : W * option error) (runError : option error)
  : W * option error :=
  match written with
  | (w, Some e) => (w, Some e)
  | (w, None) => (w, runError)
  end.

(** *** The rendered text, in closed form *)

Definition concatChunks (chunks : list string) : string :=
  foldr String.append EmptyString chunks.

(** [k="v", ] for every attribute, keys ascending. *)
Definition attributesText (attrs : gmap string string) : string :=
  concatChunks (map (λ e, fst e +:+ "=" +:+ dquote +:+ snd e +:+ dquote +:+ ", ")
                    (sortedAttributes attrs)).

(** The line of a statement the template takes for an edge. *)
Definition edgeLine (op : string) (s : statement) : string :=
  nl +:+ tab +:+ displayText (Source s) +:+ " " +:+ op +:+ " " +:+
  displayText (Target s) +:+ " [ " +:+ attributesText (Attributes s) +:+
  " weight=" +:+ pretty (Weight s) +:+ " ];" +:+ nl.

(** The line of a statement the template takes for a lone vertex. *)
Definition vertexLine (s : statement) : string :=
  nl +:+ tab +:+ displayText (Source s) +:+ " ;" +:+ nl.

Definition statementLine (op : string) (s : statement) : string :=
  if isTrue (Target s) then edgeLine op s else vertexLine s.

Definition statementLines (op : string) (stmts : list statement) : string :=
  concatChunks (map (statementLine op) stmts).

Definition documentHead (graphType : string) : string :=
  "strict " +:+ graphType +:+ " {" +:+ nl.

Definition documentTail : string := nl +:+ "}" +:+ nl.

Definition documentText (d : description) : string :=
  documentHead (GraphType d) +:+
  statementLines (EdgeOperator d) (Statements d) +:+
  documentTail.

(** *** The statements of an adjacency map, in closed form *)

Definition vertexStatement {K} `{comparable K} (vertex : K) : statement :=
  {| Source := box vertex; Target := VNil; Weight := 0; Attributes := ∅ |}.

Definition edgeStatement {K} `{comparable K} (vertex : K) (entry : K * graph.Edge K)
  : statement :=
  {| Source := box vertex;
     Target := box (fst entry);
     Weight := graph.Weight (graph.Properties (snd entry));
     Attributes := graph.Attributes (graph.Properties (snd entry)) |}.

(** One edge statement per adjacency entry, or one vertex statement when
    there is none. *)
Definition vertexStatements {K} `{comparable K}
    (entry : K * list (K * graph.Edge K)) : list statement :=
  match snd entry with
  | [] => [vertexStatement (fst entry)]
  | adjacencies => map (edgeStatement (fst entry)) adjacencies
  end.

Definition expectedStatements {K} `{comparable K} (adj : Graph.adjacencyMap K)
  : list statement :=
  flat_map vertexStatements adj.

(** The number of adjacency entries across all vertices. *)
Definition adjacencyEntries {K} (adj : Graph.adjacencyMap K) : nat :=
  sum_list (map (λ entry, length (snd entry)) adj).

Definition hasTarget (s : statement) : bool :=
  match Target s with
  | VNil => false
  | _ => true
  end.

(** *** The variable stacks of a run of [dotTree] *)

Definition rootVars (d : description) : varStack := [("$", reflectDescription d)].

Definition statementVars (d : description) (s : statement) : varStack :=
  ("$s", reflectStatement s) :: rootVars d.

(** *** Sample graphs *)

Definition plainEdge {K} (source target : K) (weight : Z) (attrs : gmap string string)
  : graph.Edge K :=
  graph.mkEdge source target (graph.mkEdgeProperties weight attrs).

(** Vertices 1, 2, 3 and 4 with edges 1-2 (weight 5, color red) and 1-3;
    vertex 4 has no edge. *)
Definition sampleAdjacency : Graph.adjacencyMap Z :=
  [(1, [(2, plainEdge 1 2 5 {[ "color" := "red" ]}); (3, plainEdge 1 3 0 ∅)]);
   (2, []); (3, []); (4, [])].

Definition sampleDirected : Graph.fixture Z :=
  Graph.mkFixture (graph.mkTraits true false false false) sampleAdjacency None.

Definition sampleUndirected : Graph.fixture Z :=
  Graph.mkFixture (graph.mkTraits false false false false) sampleAdjacency None.

(** A graph whose [AdjacencyMap] reports a fault. *)
Definition errInternal : error := errorString "internal fault".

Definition sampleFaulty : Graph.fixture Z :=
  Graph.mkFixture (graph.mkTraits true false false false) [] (Some errInternal).

(** A directed graph with vertices 0 and 1 and the edge 1 -> 0 of weight 7. *)
Definition zeroTargetGraph : Graph.fixture Z :=
  Graph.mkFixture (graph.mkTraits true false false false)
    [(1, [(0, plainEdge 1 0 7 ∅)]); (0, [])] None.

(** The edge statement from point {1 1} to the zero point {0 0}. *)
Definition zeroPointStatement : statement :=
  edgeStatement (mkPoint 1 1) (mkPoint 0 0, plainEdge (mkPoint 1 1) (mkPoint 0 0) 7 ∅).

(** *** Two enumerations of one adjacency map

    The same vertices in another order, each with the same adjacent
    vertices and edges in another order. *)
Definition sameAdjacency {K} (adj1 adj2 : Graph.adjacencyMap K) : Prop :=
  ∃ mid, adj1 ≡ₚ mid ∧
         Forall2 (λ e1 e2, fst e1 = fst e2 ∧ snd e1 ≡ₚ snd e2) mid adj2.

(** *** The lines of a vertex of the adjacency map, in closed form

    One edge line per adjacency entry, or the line of the vertex alone when
    it has none. *)
Definition entryLines {K} `{comparable K} (op : string)
    (entry : K * list (K * graph.Edge K)) : list string :=
  match snd entry with
  | [] => [nl +:+ tab +:+ displayText (box (fst entry)) +:+ " ;" +:+ nl]
  | adjacencies =>
      map (λ e,
        nl +:+ tab +:+ displayText (box (fst entry)) +:+ " " +:+ op +:+ " " +:+
        displayText (box (fst e)) +:+ " [ " +:+
        attributesText (graph.Attributes (graph.Properties (snd e))) +:+
        " weight=" +:+ pretty (graph.Weight (graph.Properties (snd e))) +:+
        " ];" +:+ nl) adjacencies
  end.

(** Every adjacent vertex of the map is one the template takes as true. *)
Definition targetsTrue {K} `{comparable K} (adj : Graph.adjacencyMap K) : Prop :=
  Forall (λ entry, Forall (λ e, isTrue (box (fst e)) = true) (snd entry)) adj.

(** *** More sample graphs *)

(** The sample adjacency map enumerated in another order. *)
Definition sampleAdjacencyShuffled : Graph.adjacencyMap Z :=
  [(4, []); (2, []);
   (1, [(3, plainEdge 1 3 0 ∅); (2, plainEdge 1 2 5 {[ "color" := "red" ]})]);
   (3, [])].

Definition sampleShuffled : Graph.fixture Z :=
  Graph.mkFixture (graph.mkTraits true false false false) sampleAdjacencyShuffled None.

(** The directed sample graph with every other trait set as well. *)
Definition sampleDirectedTree : Graph.fixture Z :=
  Graph.mkFixture (graph.mkTraits true true true true) sampleAdjacency None.

(** A graph whose vertices are channels: one vertex, without edges. *)
Definition channelAdjacency : Graph.adjacencyMap channel :=
  [(mkChannel "0xc000012060", [])].

Definition channelGraph : Graph.fixture channel :=
  Graph.mkFixture (graph.mkTraits false false false false) channelAdjacency None.

(** The values the truth test of the template takes as true whatever they
    hold: a struct, and an array that is not empty. *)
Definition alwaysTrue (v : value) : bool :=
  match v with
  | VStruct _ => true
  | VArray (_ :: _) => true
  | _ => false
  end.

(** A graph without vertices. *)
Definition emptyGraph : Graph.fixture Z :=
  Graph.mkFixture (graph.mkTraits false false false false) [] None.

End draw.

(** * Properties *)

Import golang template draw.

(** ** Trait options *)

Section trait_options.
Import graph.

Lemma option_keeps_flags f t : isTraitOption f → flagsIncluded t (f t).
Proof.
  intros [-> | [-> | [-> | [-> | ->]]]]; destruct t as [[] [] [] []];
    repeat split; cbn; congruence.
Qed.

Lemma option_comm f g t : isTraitOption f → isTraitOption g → f (g t) = g (f t).
Proof.
  intros [-> | [-> | [-> | [-> | ->]]]] [-> | [-> | [-> | [-> | ->]]]];
    reflexivity.
Qed.

Lemma option_idem f t : isTraitOption f → f (f t) = f t.
Proof. intros [-> | [-> | [-> | [-> | ->]]]]; reflexivity. Qed.

Lemma applyOptions_cons f opts t :
  applyOptions (f :: opts) t = applyOptions opts (f t).
Proof. reflexivity. Qed.

Lemma applyOptions_app opts1 opts2 t :
  applyOptions (opts1 ++ opts2) t = applyOptions opts2 (applyOptions opts1 t).
Proof. unfold applyOptions. apply fold_left_app. Qed.

Lemma applyOptions_option_comm opts f t :
  Forall isTraitOption opts → isTraitOption f →
  applyOptions opts (f t) = f (applyOptions opts t).
Proof.
  intros Hopts Hf. revert t.
  induction Hopts as [| g opts Hg _ IH]; intros t; [reflexivity |].
  rewrite !applyOptions_cons, <- IH. f_equal. by apply option_comm.
Qed.

Lemma applyOptions_keeps_flags opts t :
  Forall isTraitOption opts → flagsIncluded t (applyOptions opts t).
Proof.
  intros Hopts. revert t.
  induction Hopts as [| f opts Hf _ IH]; intros t.
  - repeat split; auto.
  - rewrite applyOptions_cons.
    destruct (option_keeps_flags f t Hf) as (H1 & H2 & H3 & H4).
    destruct (IH (f t)) as (I1 & I2 & I3 & I4).
    repeat split; auto.
Qed.

Lemma applyOptions_Permutation opts opts' t :
  Forall isTraitOption opts → opts ≡ₚ opts' →
  applyOptions opts t = applyOptions opts' t.
Proof.
  intros Hopts Hperm. revert t Hopts.
  induction Hperm as [| f l l' _ IH | f g l | l l' l'' H1 IH1 H2 IH2];
    intros t Hopts.
  - reflexivity.
  - rewrite !applyOptions_cons. apply IH. by inversion Hopts.
  - rewrite !applyOptions_cons. f_equal.
    inversion Hopts as [| ? ? Hg Hrest]; subst.
    inversion Hrest; subst. by apply option_comm.
  - rewrite IH1 by done. apply IH2. by rewrite <- H1.
Qed.

(** An option already in the sequence adds nothing when applied first. *)
Lemma applyOptions_absorb opts f t :
  Forall isTraitOption opts → f ∈ opts →
  applyOptions opts (f t) = applyOptions opts t.
Proof.
  intros Hopts Hin. revert t.
  induction Hopts as [| g opts Hg Hrest IH]; intros t.
  - by apply elem_of_nil in Hin.
  - rewrite !applyOptions_cons.
    apply elem_of_cons in Hin as [-> | Hin].
    + by rewrite option_idem.
    + assert (isTraitOption f) as Hf.
      { rewrite Forall_forall in Hrest. by apply Hrest. }
      rewrite (option_comm g f t Hg Hf). by apply IH.
Qed.

Lemma applyOptions_subsumed opts1 opts2 t :
  Forall isTraitOption opts2 → (∀ f, f ∈ opts1 → f ∈ opts2) →
  applyOptions opts1 (applyOptions opts2 t) = applyOptions opts2 t.
Proof.
  intros Hopts2. revert t.
  induction opts1 as [| f opts1 IH]; intros t Hsub; [reflexivity |].
  rewrite applyOptions_cons.
  assert (f ∈ opts2) as Hin by (apply Hsub; left).
  assert (isTraitOption f) as Hf.
  { rewrite Forall_forall in Hopts2. by apply Hopts2. }
  rewrite <- applyOptions_option_comm by done.
  rewrite (applyOptions_absorb opts2 f t) by done.
  apply IH. intros g Hg. apply Hsub. by right.
Qed.

Lemma applyOptions_comm opts1 opts2 t :
  Forall isTraitOption opts1 → Forall isTraitOption opts2 →
  applyOptions opts1 (applyOptions opts2 t) =
  applyOptions opts2 (applyOptions opts1 t).
Proof.
  intros H1 H2. rewrite <- !applyOptions_app.
  apply applyOptions_Permutation.
  - by apply Forall_app.
  - apply Permutation_app_comm.
Qed.

(** C7: applying [Tree] to any traits value gives exactly the value that
    applying [Acyclic] and [Rooted] gives, in either order and also as
    options of a sequence: it sets the two existing flags and leaves no
    other trace. *)
Theorem Tree_is_Acyclic_and_Rooted (t : Traits) :
  Tree t = Rooted (Acyclic t) ∧
  Tree t = Acyclic (Rooted t) ∧
  Tree t = {| IsDirected := IsDirected t; IsAcyclic := true;
              IsWeighted := IsWeighted t; IsRooted := true |} ∧
  ∀ before after,
    applyOptions (before ++ [Tree] ++ after) t =
    applyOptions (before ++ [Acyclic; Rooted] ++ after) t.
Proof.
  repeat split. intros before after.
  by rewrite !applyOptions_app.
Qed.

(** C8: every trait option only sets flags, so for every starting value and
    every sequence of options the flags set before stay set, applying the
    sequence again changes nothing, and the result depends only on which
    options occur in the sequence, not on their order or number. *)
Theorem trait_options_idempotent_and_commutative
    (opts : list (Traits → Traits)) (t : Traits) :
  Forall isTraitOption opts →
  flagsIncluded t (applyOptions opts t) ∧
  applyOptions opts (applyOptions opts t) = applyOptions opts t ∧
  applyOptions (opts ++ opts) t = applyOptions opts t ∧
  (∀ opts', opts ≡ₚ opts' → applyOptions opts' t = applyOptions opts t) ∧
  (∀ opts', Forall isTraitOption opts' → (∀ f, f ∈ opts ↔ f ∈ opts') →
            applyOptions opts' t = applyOptions opts t).
Proof.
  intros Hopts. split; [by apply applyOptions_keeps_flags |].
  assert (applyOptions opts (applyOptions opts t) = applyOptions opts t) as Hidem.
  { by apply applyOptions_subsumed. }
  split; [done |]. split; [by rewrite applyOptions_app |]. split.
  - intros opts' Hperm. symmetry. by apply applyOptions_Permutation.
  - intros opts' Hopts' Hsame.
    rewrite <- (applyOptions_subsumed opts opts' t) by (done || apply Hsame).
    rewrite applyOptions_comm by done.
    apply applyOptions_subsumed; [done | apply Hsame].
Qed.

Lemma trait_options_idempotent_and_commutative_witness :
  Forall isTraitOption [Tree; Directed; Acyclic] ∧
  applyOptions [Tree; Directed; Acyclic] (mkTraits false false false false) =
    mkTraits true true false true ∧
  applyOptions [Acyclic; Directed; Tree; Tree] (mkTraits false false false false) =
    applyOptions [Tree; Directed; Acyclic] (mkTraits false false false false).
Proof.
  assert (Forall isTraitOption [Tree; Directed; Acyclic]) as Hopts.
  { repeat (constructor; [unfold isTraitOption; auto 10 |]). constructor. }
  split; [exact Hopts |]. split; [reflexivity |].
  refine (proj2 (proj2 (proj2 (proj2
    (trait_options_idempotent_and_commutative _ _ Hopts)))) _ _ _).
  - repeat (constructor; [unfold isTraitOption; auto 10 |]). constructor.
  - intros f. rewrite !elem_of_cons, !elem_of_nil. tauto.
Defined.

End trait_options.

(** ** Sorting entries by key *)

Section sort_entries.
Context {A : Type}.
Implicit Types l : list (string * A).

#[local] Instance keyLe_trans : Transitive (@keyLe A).
Proof. intros x y z. unfold keyLe. apply transitivity. Qed.

#[local] Instance keyLe_total : Total (@keyLe A).
Proof. intros x y. unfold keyLe. apply total, _. Qed.

Lemma NoDup_fst_elem_of l k a b :
  NoDup l.*1 → (k, a) ∈ l → (k, b) ∈ l → a = b.
Proof.
  induction l as [| [k' c] l IH]; cbn; intros Hnd Ha Hb.
  - by apply elem_of_nil in Ha.
  - apply NoDup_cons in Hnd as [Hk Hnd].
    apply elem_of_cons in Ha as [Ha | Ha], Hb as [Hb | Hb]; simplify_eq; auto.
    + exfalso. apply Hk. apply list_elem_of_fmap. by exists (k', b).
    + exfalso. apply Hk. apply list_elem_of_fmap. by exists (k', a).
Qed.

Lemma keySorted_unique l1 l2 :
  NoDup l1.*1 → StronglySorted keyLe l1 → StronglySorted keyLe l2 →
  l1 ≡ₚ l2 → l1 = l2.
Proof.
  intros Hnd H1 H2 Hperm.
  apply (StronglySorted_unique_strong keyLe); try done.
  intros [k1 a1] [k2 a2] Hin1 Hin2 Hle1 Hle2.
  rewrite <- Hperm in Hin2. unfold keyLe in *; cbn in *.
  assert (k1 = k2) as -> by (by apply (anti_symm String.le)).
  f_equal. by eapply NoDup_fst_elem_of.
Qed.

Lemma sortEntries_sorted l : StronglySorted keyLe (sortEntries l).
Proof. apply StronglySorted_merge_sort; apply _. Qed.

Lemma sortEntries_Permutation l : sortEntries l ≡ₚ l.
Proof. apply merge_sort_Permutation. Qed.

Lemma sortEntries_enumeration l1 l2 :
  NoDup l1.*1 → l1 ≡ₚ l2 → sortEntries l1 = sortEntries l2.
Proof.
  intros Hnd Hperm. apply keySorted_unique.
  - by rewrite sortEntries_Permutation.
  - apply sortEntries_sorted.
  - apply sortEntries_sorted.
  - by rewrite !sortEntries_Permutation.
Qed.

End sort_entries.

Lemma sortEntries_map_values {A B} (f : A → B) (l : list (string * A)) :
  NoDup l.*1 →
  sortEntries (map (λ e, (fst e, f (snd e))) l) =
  map (λ e, (fst e, f (snd e))) (sortEntries l).
Proof.
  intros Hnd.
  assert (∀ l' : list (string * A), (map (λ e, (fst e, f (snd e))) l').*1 = l'.*1) as Hkeys.
  { intros l'. induction l' as [| [??] ? IH]; cbn; [done | by rewrite IH]. }
  apply keySorted_unique.
  - rewrite sortEntries_Permutation. by rewrite Hkeys.
  - apply sortEntries_sorted.
  - pose proof (sortEntries_sorted l) as Hs.
    induction Hs as [| e l' Hs IH Hall]; cbn; constructor; [done |].
    rewrite Forall_forall in Hall. apply Forall_forall.
    intros e' [e'' [-> Hin]]%list_elem_of_fmap. by apply Hall.
  - rewrite sortEntries_Permutation. by rewrite (sortEntries_Permutation l).
Qed.

(** ** Running the parse tree *)

Lemma bind_run {A B} (m : Exec A) (f : A → Exec B) out1 a out2 r :
  m = mkExec out1 (Ok a) → f a = mkExec out2 r →
  m ≫= f = mkExec (out1 ++ out2) r.
Proof. intros -> Hf. unfold mbind, Exec_bind. cbn. rewrite Hf. by destruct r. Qed.

Lemma bind_fail {A B} (m : Exec A) (f : A → Exec B) out e :
  m = mkExec out (Err e) → m ≫= f = mkExec out (Err e).
Proof. by intros ->. Qed.

Lemma printableValue_true v :
  isPrintable v = true → printableValue v = Some (displayText v).
Proof.
  unfold isPrintable, printableValue.
  destruct (indirect v); try done; intros [? [=]]%bool_decide_eq_true.
Qed.

Lemma printableValue_false v : isPrintable v = false → printableValue v = None.
Proof.
  unfold isPrintable. destruct (printableValue v); [| done].
  intros Hfalse%bool_decide_eq_false. destruct Hfalse. by eexists.
Qed.

Lemma walk_NText text dot vars : walk (NText text) dot vars = mkExec [text] (Ok vars).
Proof. reflexivity. Qed.

Lemma walk_print op dot vars v text :
  evalOperand dot vars op = Ok v →
  printableValue v = Some text →
  walk (NAction (mkPipeline [] op)) dot vars = mkExec [text] (Ok vars).
Proof.
  intros Hv Htext. cbn. unfold evalPipeline. cbn. rewrite Hv. cbn.
  unfold printValue. by rewrite Htext.
Qed.

Lemma walk_print_fail op dot vars v :
  evalOperand dot vars op = Ok v →
  printableValue v = None →
  walk (NAction (mkPipeline [] op)) dot vars = mkExec [] (Err errCantPrint).
Proof.
  intros Hv Htext. cbn. unfold evalPipeline. cbn. rewrite Hv. cbn.
  unfold printValue. by rewrite Htext.
Qed.

Lemma walk_NIf op list1 elseList dot vars v out vars' :
  evalOperand dot vars op = Ok v →
  walkList walk (if isTrue v then list1 else elseList) dot vars = mkExec out (Ok vars') →
  walk (NIf (mkPipeline [] op) list1 elseList) dot vars = mkExec out (Ok vars).
Proof.
  intros Hv Hlist. cbn [walk]. unfold evalPipeline. cbn [Cmd Decl fold_left].
  rewrite Hv. cbn. rewrite Hlist. cbn. by rewrite app_nil_r.
Qed.

Lemma walk_NIf_fail op list1 elseList dot vars v out e :
  evalOperand dot vars op = Ok v →
  walkList walk (if isTrue v then list1 else elseList) dot vars = mkExec out (Err e) →
  walk (NIf (mkPipeline [] op) list1 elseList) dot vars = mkExec out (Err e).
Proof.
  intros Hv Hlist. cbn [walk]. unfold evalPipeline. cbn [Cmd Decl fold_left].
  rewrite Hv. cbn. by rewrite Hlist.
Qed.

Lemma walk_NRange pipe list1 dot vars v vars' its out :
  evalPipeline dot vars pipe = Ok (v, vars') →
  rangeItems v = Ok its →
  iterate walk list1 (Decl pipe) vars its = mkExec out (Ok ()) →
  walk (NRange pipe list1 []) dot vars = mkExec out (Ok vars).
Proof.
  intros Hv Hits Hloop. cbn [walk]. rewrite Hv. cbn. rewrite Hits. cbn.
  destruct its as [| it its].
  - cbn in Hloop. by injection Hloop as <-.
  - rewrite Hloop. cbn. by rewrite app_nil_r.
Qed.

Lemma walk_NRange_fail pipe list1 dot vars v vars' its out e :
  evalPipeline dot vars pipe = Ok (v, vars') →
  rangeItems v = Ok its →
  iterate walk list1 (Decl pipe) vars its = mkExec out (Err e) →
  walk (NRange pipe list1 []) dot vars = mkExec out (Err e).
Proof.
  intros Hv Hits Hloop. cbn [walk]. rewrite Hv. cbn. rewrite Hits. cbn.
  destruct its as [| it its]; [done |]. by rewrite Hloop.
Qed.

Lemma walkList_nil dot vars : walkList walk [] dot vars = mkExec [] (Ok vars).
Proof. reflexivity. Qed.

Lemma walkList_cons n ns dot vars out1 vars1 out2 r :
  walk n dot vars = mkExec out1 (Ok vars1) →
  walkList walk ns dot vars1 = mkExec out2 r →
  walkList walk (n :: ns) dot vars = mkExec (out1 ++ out2) r.
Proof. intros Hn Hns. cbn [walkList]. by eapply bind_run. Qed.

Lemma walkList_fail n ns dot vars out e :
  walk n dot vars = mkExec out (Err e) →
  walkList walk (n :: ns) dot vars = mkExec out (Err e).
Proof. intros Hn. cbn [walkList]. by eapply bind_fail. Qed.

Lemma iterate_cons body decl vars index elem its out1 vars1 out2 r :
  walkList walk body elem (setIterVars decl index elem vars) = mkExec out1 (Ok vars1) →
  iterate walk body decl vars its = mkExec out2 r →
  iterate walk body decl vars ((index, elem) :: its) = mkExec (out1 ++ out2) r.
Proof. intros Hbody Hrest. cbn [iterate]. by eapply bind_run. Qed.

Lemma iterate_fail body decl vars index elem its out e :
  walkList walk body elem (setIterVars decl index elem vars) = mkExec out (Err e) →
  iterate walk body decl vars ((index, elem) :: its) = mkExec out (Err e).
Proof. intros Hbody. cbn [iterate]. by eapply bind_fail. Qed.

(** One node of a list: a text node, a field or variable printed, and the
    text node that ends a list. *)
Ltac walk_text :=
  eapply (walkList_cons _ _ _ _ [_]); [apply walk_NText |].
Ltac walk_printed v :=
  eapply (walkList_cons _ _ _ _ [_]); [by apply (walk_print _ _ _ v) |].
Ltac walk_last_text :=
  eapply (walkList_cons _ _ _ _ [_] _ []); [apply walk_NText | apply walkList_nil].

(** ** The template engine on [dotTemplate] *)

(** The template parses, and to the tree [dotTree]. *)
Lemma Parse_dotTemplate :
  Parse (New "dotTemplate") dotTemplate = Ok (mkTemplate "dotTemplate" dotTree).
Proof. vm_compute. reflexivity. Qed.

(** Parsing can fail: an action left open, a control structure left open,
    a stray [end] and a variable out of scope are rejected. *)
Example Parse_rejects_malformed :
  Parse (New "t") "{{.Source" = Err (errorString "unclosed action") ∧
  Parse (New "t") "{{if .Target}}x" = Err (errorString "unexpected EOF") ∧
  Parse (New "t") "{{.Target}}{{end}}" = Err (errorString "unexpected {{end}}") ∧
  Parse (New "t") "{{range $k := .Attributes}}{{$v}}{{end}}" =
    Err (errorString "undefined variable $v").
Proof. repeat split; vm_compute; reflexivity. Qed.

Lemma walk_attributeNodes k v vars :
  walkList walk attributeNodes (VString v)
    (("$v", VString v) :: ("$k", VString k) :: vars) =
  mkExec (attributeChunks (k, v))
         (Ok (("$v", VString v) :: ("$k", VString k) :: vars)).
Proof. reflexivity. Qed.

Lemma iterate_attributes vars (entries : list (string * string)) :
  iterate walk attributeNodes ["$k"; "$v"] vars
    (map (λ e, (VString (fst e), VString (snd e))) entries) =
  mkExec (flat_map attributeChunks entries) (Ok ()).
Proof.
  induction entries as [| [k v] entries IH]; [reflexivity |].
  cbn [map fst snd flat_map].
  eapply iterate_cons; [apply walk_attributeNodes | apply IH].
Qed.

Lemma NoDup_map_to_list_keys (attrs : gmap string string) :
  NoDup (map_to_list attrs).*1.
Proof. apply NoDup_fst_map_to_list. Qed.

Lemma rangeItems_attributes (attrs : gmap string string) :
  rangeItems (reflectAttributes attrs) =
  Ok (map (λ e, (VString (fst e), VString (snd e))) (sortedAttributes attrs)).
Proof.
  unfold reflectAttributes, rangeItems, sortedAttributes. cbn [indirect].
  rewrite sortEntries_map_values by apply NoDup_map_to_list_keys.
  by rewrite map_map.
Qed.

Lemma walk_attribute_range d s :
  walk (NRange (mkPipeline ["$k"; "$v"] (OField ["Attributes"])) attributeNodes [])
       (reflectStatement s) (statementVars d s) =
  mkExec (flat_map attributeChunks (sortedAttributes (Attributes s)))
         (Ok (statementVars d s)).
Proof.
  eapply walk_NRange.
  - reflexivity.
  - apply rangeItems_attributes.
  - apply iterate_attributes.
Qed.

Lemma walk_edgeNodes d s :
  isPrintable (Target s) = true →
  walkList walk edgeNodes (reflectStatement s) (statementVars d s) =
  mkExec (edgeChunks (EdgeOperator d) s) (Ok (statementVars d s)).
Proof.
  intros Htarget%printableValue_true.
  unfold edgeNodes, edgeChunks, fieldAction.
  walk_printed (VString (EdgeOperator d)). walk_text.
  walk_printed (Target s). walk_text.
  eapply walkList_cons; [apply walk_attribute_range |].
  walk_text. walk_printed (VInt (Weight s)). walk_last_text.
Qed.

Lemma walk_edgeNodes_fail d s :
  isPrintable (Target s) = false →
  walkList walk edgeNodes (reflectStatement s) (statementVars d s) =
  mkExec [EdgeOperator d; " "] (Err errCantPrint).
Proof.
  intros Htarget%printableValue_false.
  unfold edgeNodes, fieldAction.
  walk_printed (VString (EdgeOperator d)).
  eapply (walkList_cons _ _ _ _ [_] _ []); [apply walk_NText |].
  apply walkList_fail. by apply (walk_print_fail _ _ _ (Target s)).
Qed.

(** The run of one statement: its writes, and the failure at a source or
    target that cannot be printed. *)
Lemma walk_statementNodes d s :
  walkList walk statementNodes (reflectStatement s) (statementVars d s) =
  mkExec (statementWrites (EdgeOperator d) s)
         (if printableStatement s then Ok (statementVars d s) else Err errCantPrint).
Proof.
  unfold statementNodes, statementWrites, printableStatement, fieldAction.
  destruct (isPrintable (Source s)) eqn:Hsource; cbn [andb].
  - apply printableValue_true in Hsource.
    destruct (isTrue (Target s)) eqn:Htrue; cbn [negb orb].
    + destruct (isPrintable (Target s)) eqn:Htarget.
      * unfold statementChunks. rewrite Htrue.
        walk_text. walk_printed (Source s). walk_text.
        eapply walkList_cons.
        { eapply walk_NIf; [reflexivity |]. cbn [reflectStatement]. rewrite Htrue.
          by apply walk_edgeNodes. }
        walk_last_text.
      * walk_text. walk_printed (Source s).
        eapply (walkList_cons _ _ _ _ [_] _ [_; _]); [apply walk_NText |].
        apply walkList_fail.
        eapply walk_NIf_fail; [reflexivity |]. cbn [reflectStatement]. rewrite Htrue.
        by apply walk_edgeNodes_fail.
    + unfold statementChunks. rewrite Htrue.
      walk_text. walk_printed (Source s). walk_text.
      eapply (walkList_cons _ _ _ _ [] _ [_]).
      { eapply walk_NIf; [reflexivity |]. cbn [reflectStatement]. rewrite Htrue.
        apply walkList_nil. }
      walk_last_text.
  - apply printableValue_false in Hsource.
    eapply (walkList_cons _ _ _ _ [_] _ []); [apply walk_NText |].
    apply walkList_fail. by apply (walk_print_fail _ _ _ (Source s)).
Qed.

Lemma iterate_statements d stmts (its : list (value * value)) :
  its.*2 = map reflectStatement stmts →
  iterate walk statementNodes ["$s"] (rootVars d) its =
  mkExec (statementsWrites (EdgeOperator d) stmts)
         (if printableStatements stmts then Ok () else Err errCantPrint).
Proof.
  revert its. induction stmts as [| s stmts IH]; intros its Hits.
  - apply fmap_nil_inv in Hits as ->. reflexivity.
  - destruct its as [| [index elem] its]; [done |].
    cbn in Hits. injection Hits as -> Hits.
    cbn [statementsWrites printableStatements forallb].
    pose proof (walk_statementNodes d s) as Hs.
    destruct (printableStatement s); cbn [andb].
    + eapply iterate_cons; [exact Hs | by apply IH].
    + rewrite app_nil_r. by eapply iterate_fail.
Qed.

Lemma imap_snd (f : nat → value) (l : list value) :
  (imap (λ i e, (f i, e)) l).*2 = l.
Proof.
  revert f. induction l as [| x l IH]; intros f; [done |].
  cbn. f_equal. apply (IH (f ∘ S)).
Qed.

(** The run of the whole tree. *)
Lemma walk_dotTree d :
  walkList walk dotTree (reflectDescription d) (rootVars d) =
  mkExec (documentWrites d)
         (if printableStatements (Statements d) then Ok (rootVars d)
          else Err errCantPrint).
Proof.
  unfold dotTree, documentWrites, fieldAction.
  walk_text. walk_printed (VString (GraphType d)). walk_text.
  pose proof (iterate_statements d (Statements d)
                (imap (λ i e, (VInt (Z.of_nat i), e))
                      (map reflectStatement (Statements d)))
                (imap_snd (λ i, VInt (Z.of_nat i)) _)) as Hloop.
  destruct (printableStatements (Statements d)).
  - eapply walkList_cons.
    + eapply walk_NRange; [reflexivity | reflexivity | exact Hloop].
    + walk_last_text.
  - rewrite app_nil_r. apply walkList_fail.
    eapply walk_NRange_fail; [reflexivity | reflexivity | exact Hloop].
Qed.

Lemma statementsWrites_printable op stmts :
  printableStatements stmts = true →
  statementsWrites op stmts = flat_map (statementChunks op) stmts.
Proof.
  induction stmts as [| s stmts IH]; [done |].
  cbn [printableStatements forallb statementsWrites flat_map]. unfold statementWrites.
  intros [Hs Hrest]%andb_prop. rewrite Hs. f_equal. by apply IH.
Qed.

Lemma documentWrites_printable d :
  printableStatements (Statements d) = true → documentWrites d = documentChunks d.
Proof.
  intros Hprint. unfold documentWrites, documentChunks.
  by rewrite Hprint, statementsWrites_printable.
Qed.

(** ** From the writes to the rendered text *)

Lemma string_app_cons c (a b : string) : String c a +:+ b = String c (a +:+ b).
Proof. reflexivity. Qed.

Lemma string_app_nil_r (a : string) : a +:+ EmptyString = a.
Proof. induction a as [| c a IH]; [done |]. by rewrite string_app_cons, IH. Qed.

Lemma string_app_assoc (a b c : string) : (a +:+ b) +:+ c = a +:+ (b +:+ c).
Proof. induction a as [| ch a IH]; [done |]. by rewrite !string_app_cons, IH. Qed.

Lemma concatChunks_cons c chunks : concatChunks (c :: chunks) = c +:+ concatChunks chunks.
Proof. reflexivity. Qed.

Lemma concatChunks_app l1 l2 :
  concatChunks (l1 ++ l2) = concatChunks l1 +:+ concatChunks l2.
Proof.
  induction l1 as [| c l1 IH]; [done |].
  cbn [app]. by rewrite !concatChunks_cons, IH, string_app_assoc.
Qed.

Lemma concatChunks_attributes (es : list (string * string)) :
  concatChunks (flat_map attributeChunks es) =
  concatChunks (map (λ e, fst e +:+ "=" +:+ dquote +:+ snd e +:+ dquote +:+ ", ") es).
Proof.
  induction es as [| e es IH]; [done |].
  cbn [flat_map map]. rewrite concatChunks_app, IH, concatChunks_cons.
  f_equal.
Qed.

Lemma concatChunks_statement op s :
  concatChunks (statementChunks op s) = statementLine op s.
Proof.
  unfold statementChunks, statementLine.
  destruct (isTrue (Target s)).
  - unfold edgeChunks, edgeLine, attributesText.
    rewrite !concatChunks_app, concatChunks_attributes, !concatChunks_cons.
    change (concatChunks []) with EmptyString.
    by rewrite !string_app_nil_r, !string_app_assoc.
  - unfold vertexLine. cbn [app]. rewrite !concatChunks_cons.
    change (concatChunks []) with EmptyString.
    by rewrite !string_app_nil_r.
Qed.

Lemma concatChunks_statements op stmts :
  concatChunks (flat_map (statementChunks op) stmts) = statementLines op stmts.
Proof.
  unfold statementLines. induction stmts as [| s stmts IH]; [done |].
  cbn [flat_map map]. by rewrite concatChunks_app, IH, concatChunks_statement.
Qed.

Lemma concatChunks_document d : concatChunks (documentChunks d) = documentText d.
Proof.
  unfold documentChunks, documentText, documentHead, documentTail.
  rewrite !concatChunks_app, concatChunks_statements, !concatChunks_cons.
  change (concatChunks []) with EmptyString.
  by rewrite !string_app_nil_r, !string_app_assoc.
Qed.

Lemma statementLines_app op l1 l2 :
  statementLines op (l1 ++ l2) = statementLines op l1 +:+ statementLines op l2.
Proof. unfold statementLines. by rewrite map_app, concatChunks_app. Qed.

Lemma statementLines_cons op s stmts :
  statementLines op (s :: stmts) = statementLine op s +:+ statementLines op stmts.
Proof. reflexivity. Qed.

(** A buffer takes every write: it ends up holding the chunks in order. *)
Lemma writeAll_Buffer b chunks :
  writeAll (mkBuffer b) chunks = (mkBuffer (b +:+ concatChunks chunks), None).
Proof.
  revert b. induction chunks as [| c chunks IH]; intros b.
  - cbn. by rewrite string_app_nil_r.
  - cbn [writeAll]. unfold Write at 1, Buffer_Writer. cbn [bufBytes].
    by rewrite IH, concatChunks_cons, string_app_assoc.
Qed.

(** The first failing [Write] of a run, if any, is the error returned. *)
Lemma writeAll_error {W} `{Writer W} (w w' : W) chunks e :
  writeAll w chunks = (w', Some e) →
  ∃ written chunk rest w0,
    chunks = written ++ chunk :: rest ∧
    writeAll w written = (w0, None) ∧
    Write w0 chunk = (w', Some e).
Proof.
  revert w. induction chunks as [| c chunks IH]; intros w Hrun; [done |].
  cbn [writeAll] in Hrun.
  destruct (Write w c) as [w1 [e1 |]] eqn:Hw.
  - injection Hrun as <- <-. by exists [], c, chunks, w.
  - destruct (IH _ Hrun) as (written & chunk & rest & w0 & -> & Hpre & Hfail).
    exists (c :: written), chunk, rest, w0. split; [done |]. split; [| done].
    cbn [writeAll]. by rewrite Hw.
Qed.

Lemma writeAll_no_error {W} `{Writer W} (w : W) chunks :
  (∀ w0 c, snd (Write w0 c) = None) → snd (writeAll w chunks) = None.
Proof.
  intros Hok. revert w. induction chunks as [| c chunks IH]; intros w; [done |].
  cbn [writeAll]. specialize (Hok w c).
  destruct (Write w c) as [w1 [e1 |]]; [done | apply IH].
Qed.

(** ** The renderer *)

(** Rendering issues the writes of the run in order, up to the first one
    the sink rejects; when none is rejected it ends in the error of the
    run, if a key could not be printed. *)
Lemma renderDOT_run {W} `{Writer W} (w : W) d :
  renderDOT w d = finishRun (writeAll w (documentWrites d)) (documentError d).
Proof.
  unfold renderDOT. rewrite Parse_dotTemplate. unfold Execute. cbn [Root].
  change [("$", reflectDescription d)] with (rootVars d).
  rewrite walk_dotTree. cbn [output outcome]. unfold finishRun, documentError.
  destruct (writeAll w (documentWrites d)) as [w' [e |]]; [done |].
  by destruct (printableStatements (Statements d)).
Qed.

(** When every key can be printed, these are the writes of
    [documentChunks] and the run has no error of its own. *)
Lemma renderDOT_writes {W} `{Writer W} (w : W) d :
  printableStatements (Statements d) = true →
  renderDOT w d = writeAll w (documentChunks d).
Proof.
  intros Hprint. rewrite renderDOT_run. unfold documentError.
  rewrite Hprint, documentWrites_printable by done.
  by destruct (writeAll w (documentChunks d)) as [w' [e |]].
Qed.

Lemma renderDOT_Buffer b d :
  printableStatements (Statements d) = true →
  renderDOT (mkBuffer b) d = (mkBuffer (b +:+ documentText d), None).
Proof.
  intros Hprint.
  by rewrite renderDOT_writes, writeAll_Buffer, concatChunks_document.
Qed.

Lemma renderDOT_Buffer_run b d :
  renderDOT (mkBuffer b) d =
  (mkBuffer (b +:+ concatChunks (documentWrites d)), documentError d).
Proof. by rewrite renderDOT_run, writeAll_Buffer. Qed.

(** The text around the line of one statement. *)
Lemma documentText_split gt op before s after :
  documentText (mkDescription gt op (before ++ s :: after)) =
  documentHead gt +:+ statementLines op before +:+ statementLine op s +:+
  statementLines op after +:+ documentTail.
Proof.
  unfold documentText. cbn [GraphType EdgeOperator Statements].
  by rewrite statementLines_app, statementLines_cons, !string_app_assoc.
Qed.

(** ** The statement builder *)

Section builder.
Context {K G : Type} `{comparable K} `{Graph.Interface K G}.

Lemma appendStatement_fields desc stmt :
  appendStatement desc stmt =
  mkDescription (GraphType desc) (EdgeOperator desc) (Statements desc ++ [stmt]).
Proof. reflexivity. Qed.

(** The inner loop appends one edge statement per adjacency entry. *)
Lemma inner_loop (vertex : K) (adjacencies : list (K * graph.Edge K)) desc :
  fold_left (λ desc '(adjacency, edge),
    let stmt := {| Source := box vertex;
                   Target := box adjacency;
                   Weight := graph.Weight (graph.Properties edge);
                   Attributes := graph.Attributes (graph.Properties edge) |} in
    appendStatement desc stmt) adjacencies desc =
  mkDescription (GraphType desc) (EdgeOperator desc)
    (Statements desc ++ map (edgeStatement vertex) adjacencies).
Proof.
  revert desc. induction adjacencies as [| [adjacency edge] rest IH]; intros desc.
  - cbn. rewrite app_nil_r. by destruct desc.
  - cbn [fold_left]. rewrite IH. cbn. by rewrite <- app_assoc.
Qed.

(** The outer loop appends the statements of every vertex in turn. *)
Lemma outer_loop (adj : Graph.adjacencyMap K) desc :
  fold_left (λ desc '(vertex, adjacencies),
    if (length adjacencies =? 0)%nat then
      let stmt := {| Source := box vertex; Target := VNil;
                     Weight := 0; Attributes := ∅ |} in
      appendStatement desc stmt
    else
      fold_left (λ desc '(adjacency, edge),
        let stmt := {| Source := box vertex;
                       Target := box adjacency;
                       Weight := graph.Weight (graph.Properties edge);
                       Attributes := graph.Attributes (graph.Properties edge) |} in
        appendStatement desc stmt) adjacencies desc) adj desc =
  mkDescription (GraphType desc) (EdgeOperator desc)
    (Statements desc ++ expectedStatements adj).
Proof.
  revert desc. induction adj as [| [vertex adjacencies] rest IH]; intros desc.
  - cbn. rewrite app_nil_r. by destruct desc.
  - cbn [fold_left]. rewrite IH. unfold expectedStatements. cbn [flat_map].
    rewrite app_assoc. destruct adjacencies as [| entry adjacencies].
    + reflexivity.
    + change (length (entry :: adjacencies) =? 0)%nat with false. cbv iota.
      by rewrite inner_loop.
Qed.

Lemma generateDOT_ok (g : G) adj :
  Graph.AdjacencyMap g = (adj, None) →
  generateDOT g =
  (mkDescription (graphTypeOf g) (edgeOperatorOf g) (expectedStatements adj), None).
Proof.
  intros Hadj. unfold generateDOT, graphTypeOf, edgeOperatorOf. rewrite Hadj.
  rewrite outer_loop. by destruct (graph.IsDirected (Graph.Traits g)).
Qed.

Lemma generateDOT_error (g : G) adj err :
  Graph.AdjacencyMap g = (adj, Some err) →
  generateDOT g = (mkDescription (graphTypeOf g) (edgeOperatorOf g) [], Some err).
Proof.
  intros Hadj. unfold generateDOT, graphTypeOf, edgeOperatorOf. rewrite Hadj.
  by destruct (graph.IsDirected (Graph.Traits g)).
Qed.

Lemma DOT_ok {W} `{Writer W} (g : G) (w : W) adj :
  Graph.AdjacencyMap g = (adj, None) →
  DOT g w =
  renderDOT w (mkDescription (graphTypeOf g) (edgeOperatorOf g) (expectedStatements adj)).
Proof. intros Hadj. unfold DOT. by rewrite (generateDOT_ok g adj Hadj). Qed.

End builder.

(** ** Key types *)

#[global] Instance int_comparableLaws : comparableLaws Z.
Proof. split; [by intros ?? [=] | done]. Qed.

#[global] Instance string_comparableLaws : comparableLaws string.
Proof. split; [by intros ?? [=] | done]. Qed.

#[global] Instance bool_comparableLaws : comparableLaws bool.
Proof. split; [by intros ?? [=] | done]. Qed.

#[global] Instance channel_comparableLaws : comparableLaws channel.
Proof.
  split; [| done]. intros [a1] [a2] Heq. unfold box, channel_comparable in Heq.
  cbn in Heq. by simplify_eq.
Qed.

#[global] Instance point_comparableLaws : comparableLaws point.
Proof.
  split; [| done].
  intros [x1 y1] [x2 y2] Heq. injection Heq as -> ->. reflexivity.
Qed.

(** ** The export pipeline *)

Section pipeline.
Context {K G : Type} `{comparable K} `{Graph.Interface K G}.

(** C1: the description [generateDOT] builds has graph type [digraph] and
    edge operator [->] when [Traits().IsDirected] is true, and [graph] and
    [--] otherwise, whether or not the adjacency map could be read; that one
    pair heads the rendered document and is the operator of the line of
    every statement in it: of every statement up to one whose key cannot be
    printed in general, and of all of them when every key can be printed. *)
Theorem generateDOT_graph_type_and_operator (g : G) :
  (GraphType (generateDOT g).1, EdgeOperator (generateDOT g).1) =
    (if graph.IsDirected (Graph.Traits g)
     then ("digraph", "->") else ("graph", "--")) ∧
  (∀ b, renderDOT (mkBuffer b) (generateDOT g).1 =
    (mkBuffer (b +:+ concatChunks
                 (["strict "; GraphType (generateDOT g).1; " {" +:+ nl] ++
                  statementsWrites (EdgeOperator (generateDOT g).1)
                                   (Statements (generateDOT g).1) ++
                  (if printableStatements (Statements (generateDOT g).1)
                   then [nl +:+ "}" +:+ nl] else []))),
     documentError (generateDOT g).1)) ∧
  (printableStatements (Statements (generateDOT g).1) = true →
   ∀ b, renderDOT (mkBuffer b) (generateDOT g).1 =
    (mkBuffer (b +:+ documentHead (GraphType (generateDOT g).1) +:+
               statementLines (EdgeOperator (generateDOT g).1)
                              (Statements (generateDOT g).1) +:+
               documentTail), None)).
Proof.
  split; [| split].
  - destruct (Graph.AdjacencyMap g) as [adj [err |]] eqn:Hadj.
    + rewrite (generateDOT_error g adj err Hadj). unfold graphTypeOf, edgeOperatorOf.
      by destruct (graph.IsDirected (Graph.Traits g)).
    + rewrite (generateDOT_ok g adj Hadj). unfold graphTypeOf, edgeOperatorOf.
      by destruct (graph.IsDirected (Graph.Traits g)).
  - intros b. by rewrite renderDOT_Buffer_run.
  - intros Hprint b. by rewrite renderDOT_Buffer.
Qed.

Lemma expectedStatements_app (adj1 adj2 : Graph.adjacencyMap K) :
  expectedStatements (adj1 ++ adj2) = expectedStatements adj1 ++ expectedStatements adj2.
Proof. unfold expectedStatements. apply flat_map_app. Qed.

Lemma vertexStatements_source (entry : K * list (K * graph.Edge K)) s :
  s ∈ vertexStatements entry → Source s = box (fst entry).
Proof.
  destruct entry as [v [| e adjacencies]]; unfold vertexStatements; cbn [snd fst].
  - by intros ->%list_elem_of_singleton.
  - by intros [e' [-> _]]%list_elem_of_fmap.
Qed.

Lemma expectedStatements_source (adj : Graph.adjacencyMap K) s :
  s ∈ expectedStatements adj → ∃ entry, entry ∈ adj ∧ Source s = box (fst entry).
Proof.
  unfold expectedStatements. rewrite list_elem_of_In, in_flat_map.
  intros (entry & Hin & Hs). exists entry. rewrite list_elem_of_In. split; [done |].
  apply vertexStatements_source. by rewrite list_elem_of_In.
Qed.

(** C3: a vertex whose adjacency set is empty gets exactly one statement
    with that vertex as source, and that statement has no target; this holds
    for directed and undirected graphs alike, and the line rendered for it
    is the source followed by a semicolon, with no operator, target or
    bracket clause.  The writes for the statement are the indentation, the
    source and the semicolon (the indentation alone when the vertex cannot
    be printed), and when every key of the graph can be printed the
    document holds that line between the lines of the other statements. *)
Theorem isolated_vertex_statement `{!comparableLaws K} (g : G) adj (v : K) :
  Graph.AdjacencyMap g = (adj, None) →
  NoDup adj.*1 →
  (v, []) ∈ adj →
  ∃ before after,
    Statements (generateDOT g).1 = before ++ vertexStatement v :: after ∧
    (∀ s, s ∈ before ++ after → Source s ≠ box v) ∧
    statementWrites (edgeOperatorOf g) (vertexStatement v) =
      [nl +:+ tab] ++
      (if isPrintable (box v) then [displayText (box v); " "; ";" +:+ nl] else []) ∧
    (printableStatements (Statements (generateDOT g).1) = true →
     ∀ b, DOT g (mkBuffer b) =
      (mkBuffer (b +:+ documentHead (graphTypeOf g) +:+
                 statementLines (edgeOperatorOf g) before +:+
                 (nl +:+ tab +:+ displayText (box v) +:+ " ;" +:+ nl) +:+
                 statementLines (edgeOperatorOf g) after +:+
                 documentTail), None)).
Proof.
  intros Hadj Hnd Hin.
  apply list_elem_of_split in Hin as (adj1 & adj2 & ->).
  exists (expectedStatements adj1), (expectedStatements adj2).
  rewrite (generateDOT_ok g _ Hadj).
  cbn [fst Statements]. rewrite expectedStatements_app.
  split; [reflexivity |]. split.
  - rewrite fmap_app, fmap_cons in Hnd. cbn [fst] in Hnd.
    apply NoDup_app in Hnd as (_ & Hdisj & Hnd2).
    apply NoDup_cons in Hnd2 as [Hnotin2 _].
    intros s Hs Hsrc. apply elem_of_app in Hs as [Hs | Hs];
      apply expectedStatements_source in Hs as ([v' adjs] & Hentry & Hv');
      rewrite Hv' in Hsrc; apply box_inj in Hsrc; cbn [fst] in Hsrc; subst v'.
    + apply (Hdisj v).
      * apply list_elem_of_fmap. by exists (v, adjs).
      * left.
    + apply Hnotin2. apply list_elem_of_fmap. by exists (v, adjs).
  - split.
    { unfold statementWrites, printableStatement, vertexStatement, statementChunks.
      cbn [Source Target isTrue negb orb]. rewrite andb_true_r.
      by destruct (isPrintable (box v)). }
    intros Hprint b.
    rewrite (DOT_ok g _ _ Hadj), renderDOT_Buffer, expectedStatements_app.
    + change (expectedStatements ((v, []) :: adj2))
        with (vertexStatement v :: expectedStatements adj2).
      by rewrite documentText_split.
    + cbn [Statements]. by rewrite expectedStatements_app.
Qed.

End pipeline.

Lemma isolated_vertex_statement_witness :
  ∃ before after,
    Statements (generateDOT sampleUndirected).1 = before ++ vertexStatement 4 :: after ∧
    (∀ s, s ∈ before ++ after → Source s ≠ box 4) ∧
    statementWrites "--" (vertexStatement 4) = [nl +:+ tab; "4"; " "; ";" +:+ nl] ∧
    ∀ b, DOT sampleUndirected (mkBuffer b) =
      (mkBuffer (b +:+ documentHead "graph" +:+
                 statementLines "--" before +:+
                 (nl +:+ tab +:+ "4 ;" +:+ nl) +:+
                 statementLines "--" after +:+
                 documentTail), None).
Proof.
  assert (NoDup sampleAdjacency.*1) as Hnd.
  { apply (bool_decide_unpack _). vm_compute. reflexivity. }
  assert ((4, []) ∈ sampleAdjacency) as Hin.
  { unfold sampleAdjacency. do 3 right. left. }
  assert (Graph.AdjacencyMap sampleUndirected = (sampleAdjacency, None)) as Hadj
    by reflexivity.
  destruct (isolated_vertex_statement sampleUndirected sampleAdjacency 4 Hadj Hnd Hin)
    as (before & after & Hstmts & Hother & Hwrites & Hdoc).
  exists before, after. split; [exact Hstmts |]. split; [exact Hother |].
  split; [exact Hwrites |]. exact (Hdoc eq_refl).
Defined.

Section statements.
Context {K G : Type} `{comparable K} `{Graph.Interface K G}.

Lemma filter_hasTarget_edges `{!comparableLaws K} (vertex : K)
    (adjacencies : list (K * graph.Edge K)) :
  List.filter hasTarget (map (edgeStatement vertex) adjacencies) =
  map (edgeStatement vertex) adjacencies.
Proof.
  induction adjacencies as [| entry rest IH]; [done |].
  cbn [map List.filter].
  assert (hasTarget (edgeStatement vertex entry) = true) as ->.
  { unfold hasTarget, edgeStatement. cbn [Target].
    pose proof (box_not_nil (fst entry)) as Hnil. by destruct (box (fst entry)). }
  by rewrite IH.
Qed.

Lemma filter_noTarget_edges `{!comparableLaws K} (vertex : K)
    (adjacencies : list (K * graph.Edge K)) :
  List.filter (λ s, negb (hasTarget s)) (map (edgeStatement vertex) adjacencies) = [].
Proof.
  induction adjacencies as [| entry rest IH]; [done |].
  cbn [map List.filter].
  assert (hasTarget (edgeStatement vertex entry) = true) as ->.
  { unfold hasTarget, edgeStatement. cbn [Target].
    pose proof (box_not_nil (fst entry)) as Hnil. by destruct (box (fst entry)). }
  exact IH.
Qed.

Lemma count_edge_statements `{!comparableLaws K} (adj : Graph.adjacencyMap K) :
  length (List.filter hasTarget (expectedStatements adj)) = adjacencyEntries adj.
Proof.
  unfold expectedStatements, adjacencyEntries.
  induction adj as [| [vertex adjacencies] rest IH]; [done |].
  cbn [flat_map map sum_list snd]. rewrite List.filter_app, length_app, IH.
  f_equal. destruct adjacencies as [| entry adjacencies]; [done |].
  unfold vertexStatements. cbn [snd fst].
  by rewrite filter_hasTarget_edges, length_map.
Qed.

Lemma count_vertex_statements `{!comparableLaws K} (adj : Graph.adjacencyMap K) :
  length (List.filter (λ s, negb (hasTarget s)) (expectedStatements adj)) =
  length (List.filter (λ entry, (length (snd entry) =? 0)%nat) adj).
Proof.
  unfold expectedStatements.
  induction adj as [| [vertex adjacencies] rest IH]; [done |].
  cbn [flat_map List.filter snd]. rewrite List.filter_app, length_app, IH.
  destruct adjacencies as [| entry adjacencies]; [done |].
  cbn [length Nat.eqb]. unfold vertexStatements. cbn [snd fst].
  by rewrite filter_noTarget_edges.
Qed.

(** C4: the statements [generateDOT] builds are, vertex by vertex in the
    order the adjacency map yields them, one edge statement per adjacency
    entry, with source, target, weight and attributes taken from the entry,
    or one vertex statement when the vertex has no entry, and nothing else;
    so the edge statements are as many as the adjacency entries of all
    vertices, and the vertex statements as many as the vertices without
    entries. *)
Theorem generateDOT_statements `{!comparableLaws K} (g : G) adj :
  Graph.AdjacencyMap g = (adj, None) →
  (generateDOT g).2 = None ∧
  Statements (generateDOT g).1 = expectedStatements adj ∧
  length (List.filter hasTarget (Statements (generateDOT g).1)) =
    adjacencyEntries adj ∧
  length (List.filter (λ s, negb (hasTarget s)) (Statements (generateDOT g).1)) =
    length (List.filter (λ entry, (length (snd entry) =? 0)%nat) adj).
Proof.
  intros Hadj. rewrite (generateDOT_ok g adj Hadj). cbn [fst snd Statements].
  split; [done |]. split; [done |]. split.
  - apply count_edge_statements.
  - apply count_vertex_statements.
Qed.

(** C5: when [AdjacencyMap] returns an error, [DOT] returns that error
    wrapped with a message naming the failed stage, and leaves the sink as
    it was: no [Write] call reaches it. *)
Theorem DOT_adjacency_error {W} `{Writer W} (g : G) (w : W) adj err :
  Graph.AdjacencyMap g = (adj, Some err) →
  DOT g w = (w, Some (Errorf "failed to generate DOT description: " err)) ∧
  Error (Errorf "failed to generate DOT description: " err) =
    "failed to generate DOT description: " +:+ Error err ∧
  Unwrap (Errorf "failed to generate DOT description: " err) = Some err.
Proof.
  intros Hadj. split; [| done].
  unfold DOT. by rewrite (generateDOT_error g adj err Hadj).
Qed.

End statements.

Lemma generateDOT_statements_witness :
  (generateDOT sampleDirected).2 = None ∧
  Statements (generateDOT sampleDirected).1 =
    [edgeStatement 1 (2, plainEdge 1 2 5 {[ "color" := "red" ]});
     edgeStatement 1 (3, plainEdge 1 3 0 ∅);
     vertexStatement 2; vertexStatement 3; vertexStatement 4] ∧
  length (List.filter hasTarget (Statements (generateDOT sampleDirected).1)) = 2%nat ∧
  length (List.filter (λ s, negb (hasTarget s))
            (Statements (generateDOT sampleDirected).1)) = 3%nat.
Proof. apply (generateDOT_statements sampleDirected sampleAdjacency). reflexivity. Defined.

Lemma DOT_adjacency_error_witness :
  DOT sampleFaulty (mkCallCounter 0) =
    (mkCallCounter 0,
     Some (wrapError "failed to generate DOT description: internal fault" errInternal)) ∧
  Error (Errorf "failed to generate DOT description: " errInternal) =
    "failed to generate DOT description: internal fault" ∧
  Unwrap (Errorf "failed to generate DOT description: " errInternal) = Some errInternal.
Proof. apply (DOT_adjacency_error sampleFaulty (mkCallCounter 0) [] errInternal). reflexivity. Defined.

(** ** Lines of the rendered document *)

Lemma keyLe_ne_keyLt {A} (e1 e2 : string * A) :
  keyLe e1 e2 → fst e1 ≠ fst e2 → keyLt e1 e2.
Proof.
  unfold keyLe, keyLt, String.le, String.leb, String.ltb.
  destruct (String.compare e1.1 e2.1) eqn:Hcmp; intros Hle Hne; try done.
  by apply String.compare_eq_iff in Hcmp.
Qed.

Lemma sortEntries_strict {A} (l : list (string * A)) :
  NoDup l.*1 → StronglySorted keyLt (sortEntries l).
Proof.
  intros Hnd.
  assert (NoDup (sortEntries l).*1) as Hnd' by (by rewrite sortEntries_Permutation).
  pose proof (sortEntries_sorted l) as Hs.
  induction Hs as [| e l' Hs IH Hall]; constructor.
  - apply IH. cbn in Hnd'. by apply NoDup_cons in Hnd' as [_ ?].
  - cbn in Hnd'. apply NoDup_cons in Hnd' as [Hnotin _].
    rewrite Forall_forall in Hall. apply Forall_forall. intros e' Hin.
    apply keyLe_ne_keyLt; [by apply Hall |].
    intros Heq. apply Hnotin. rewrite Heq. apply list_elem_of_fmap. by exists e'.
Qed.

Lemma sortedAttributes_lookup (attrs : gmap string string) k v :
  (k, v) ∈ sortedAttributes attrs ↔ attrs !! k = Some v.
Proof.
  unfold sortedAttributes. rewrite sortEntries_Permutation.
  apply elem_of_map_to_list.
Qed.

(** The line of a statement whose target the template takes as present. *)
Lemma renderDOT_edge_line gt op before s after b :
  printableStatements (before ++ s :: after) = true →
  isTrue (Target s) = true →
  renderDOT (mkBuffer b) (mkDescription gt op (before ++ s :: after)) =
    (mkBuffer (b +:+ documentHead gt +:+ statementLines op before +:+
               edgeLine op s +:+
               statementLines op after +:+ documentTail), None).
Proof.
  intros Hprint Htrue. rewrite renderDOT_Buffer by done. rewrite documentText_split.
  unfold statementLine. by rewrite Htrue.
Qed.

(** The line of a statement whose target the template takes as absent. *)
Lemma renderDOT_vertex_line gt op before s after b :
  printableStatements (before ++ s :: after) = true →
  isTrue (Target s) = false →
  renderDOT (mkBuffer b) (mkDescription gt op (before ++ s :: after)) =
    (mkBuffer (b +:+ documentHead gt +:+ statementLines op before +:+
               vertexLine s +:+
               statementLines op after +:+ documentTail), None).
Proof.
  intros Hprint Hfalse. rewrite renderDOT_Buffer by done. rewrite documentText_split.
  unfold statementLine. by rewrite Hfalse.
Qed.

(** C2, at an input where the code departs from it: in the directed graph with the
    single edge from 1 to 0, of weight 7, [generateDOT] builds the edge
    statement with target 0 and weight 7, yet the line rendered for it is
    the line of a lone vertex: no operator, no target and no weight. *)
Theorem edge_to_zero_key_rendered_without_target :
  generateDOT zeroTargetGraph =
    (mkDescription "digraph" "->"
       [ {| Source := VInt 1; Target := VInt 0; Weight := 7; Attributes := ∅ |};
         {| Source := VInt 0; Target := VNil; Weight := 0; Attributes := ∅ |} ],
     None) ∧
  DOT zeroTargetGraph (mkBuffer EmptyString) =
    (mkBuffer ("strict digraph {" +:+ nl +:+
               nl +:+ tab +:+ "1 ;" +:+ nl +:+
               nl +:+ tab +:+ "0 ;" +:+ nl +:+
               nl +:+ "}" +:+ nl), None).
Proof. split; vm_compute; reflexivity. Qed.


(** The zero values the truth test takes as false are those of every kind
    but the struct and the array that is not empty. *)
Lemma zero_value_truth v :
  v = zeroValue v → isTrue v = alwaysTrue v.
Proof.
  destruct v as [| n | str | [] | fields | elems | entries | [] text | [] text
                 | [target |] | [addr |] | [addr |] | [| x elems]];
    cbn; intros Hzero; try done; by simplify_eq.
Qed.



(** A sink that runs out of room: the renderer stops at the write that does
    not fit and returns the error of the sink. *)
Example renderDOT_sink_error :
  DOT sampleUndirected (mkLimitedSink EmptyString 20) =
    (mkLimitedSink ("strict graph {" +:+ nl +:+ nl +:+ tab +:+ "1 ") 1,
     Some errNoSpace).
Proof. vm_compute. reflexivity. Qed.

(** The document of the directed sample graph. *)
Example DOT_sampleDirected :
  DOT sampleDirected (mkBuffer EmptyString) =
    (mkBuffer ("strict digraph {" +:+ nl +:+
               nl +:+ tab +:+ "1 -> 2 [ color=" +:+ dquote +:+ "red" +:+ dquote +:+
                 ",  weight=5 ];" +:+ nl +:+
               nl +:+ tab +:+ "1 -> 3 [  weight=0 ];" +:+ nl +:+
               nl +:+ tab +:+ "2 ;" +:+ nl +:+
               nl +:+ tab +:+ "3 ;" +:+ nl +:+
               nl +:+ tab +:+ "4 ;" +:+ nl +:+
               nl +:+ "}" +:+ nl), None).
Proof. vm_compute. reflexivity. Qed.

(** What an error of a run is: a write the sink rejected, or a key that
    could not be printed while every write was accepted. *)
Lemma finishRun_error {W} `{Writer W} (w w' : W) d e :
  finishRun (writeAll w (documentWrites d)) (documentError d) = (w', Some e) →
  (∃ written chunk rest w0,
     documentWrites d = written ++ chunk :: rest ∧
     writeAll w written = (w0, None) ∧
     Write w0 chunk = (w', Some e)) ∨
  (e = errCantPrint ∧
   printableStatements (Statements d) = false ∧
   writeAll w (documentWrites d) = (w', None)).
Proof.
  unfold finishRun, documentError.
  destruct (writeAll w (documentWrites d)) as [w1 [e1 |]] eqn:Hwrite.
  - intros [= <- <-]. left. by apply writeAll_error.
  - destruct (printableStatements (Statements d)); [done |].
    intros [= <- <-]. by right.
Qed.

(** C9, as the claim states it, fails for a channel key: in the graph whose
    one vertex is a channel the adjacency map is read, the buffer accepts
    every write, and the renderer returns an error all the same, the one of
    the template engine for a value that cannot be printed, after the
    header and the indentation of the first line. *)
Lemma channel_key_render_error :
  (generateDOT channelGraph).2 = None ∧
  writeAll (mkBuffer EmptyString) (documentWrites (generateDOT channelGraph).1) =
    (mkBuffer ("strict graph {" +:+ nl +:+ nl +:+ tab), None) ∧
  renderDOT (mkBuffer EmptyString) (generateDOT channelGraph).1 =
    (mkBuffer ("strict graph {" +:+ nl +:+ nl +:+ tab), Some errCantPrint).
Proof. repeat split; vm_compute; reflexivity. Qed.

(** C9, amended: the template of the renderer parses, so [renderDOT] never
    takes its parse-error branch: for every description it issues the
    writes of the document in order; an error it returns is the error of
    the first [Write] call the sink rejected or, every write accepted, the
    error of the template engine for a key that cannot be printed (a
    channel or a function).  When every key of the description can be
    printed an error comes from the sink only, and with a sink that
    accepts every write there is none. *)
Theorem dotTemplate_always_parses {W} `{Writer W} (w : W) (d : description) :
  Parse (New "dotTemplate") dotTemplate = Ok (mkTemplate "dotTemplate" dotTree) ∧
  renderDOT w d = finishRun (writeAll w (documentWrites d)) (documentError d) ∧
  (∀ w' e, renderDOT w d = (w', Some e) →
     (∃ written chunk rest w0,
        documentWrites d = written ++ chunk :: rest ∧
        writeAll w written = (w0, None) ∧
        Write w0 chunk = (w', Some e)) ∨
     (e = errCantPrint ∧
      printableStatements (Statements d) = false ∧
      writeAll w (documentWrites d) = (w', None))) ∧
  (printableStatements (Statements d) = true →
   renderDOT w d = writeAll w (documentChunks d) ∧
   (∀ w' e, renderDOT w d = (w', Some e) →
      ∃ written chunk rest w0,
        documentChunks d = written ++ chunk :: rest ∧
        writeAll w written = (w0, None) ∧
        Write w0 chunk = (w', Some e)) ∧
   ((∀ w0 chunk, snd (Write w0 chunk) = None) → snd (renderDOT w d) = None)).
Proof.
  split; [apply Parse_dotTemplate |]. split; [apply renderDOT_run |]. split.
  - intros w' e. rewrite renderDOT_run. apply finishRun_error.
  - intros Hprint. rewrite renderDOT_writes by done. split; [done |]. split.
    + intros w' e. apply writeAll_error.
    + intros Hok. by apply writeAll_no_error.
Qed.

(** C10: in the line of an edge statement the attributes stand between the
    opening bracket and the weight as [key="value", ] pairs in strictly
    ascending byte-wise order of their keys; the pairs are those of the
    attribute mapping, and the order is the same for every order in which
    the run time enumerates the mapping and for every order in which the
    mapping was filled.  The line is the one written for the statement in
    every description whose keys can be printed. *)
Theorem attributes_rendered_in_key_order gt op before s after b :
  isTrue (Target s) = true →
  (printableStatements (before ++ s :: after) = true →
   renderDOT (mkBuffer b) (mkDescription gt op (before ++ s :: after)) =
    (mkBuffer (b +:+ documentHead gt +:+ statementLines op before +:+
               (nl +:+ tab +:+ displayText (Source s) +:+ " " +:+ op +:+ " " +:+
                displayText (Target s) +:+ " [ " +:+
                concatChunks
                  (map (λ e, fst e +:+ "=" +:+ dquote +:+ snd e +:+ dquote +:+ ", ")
                       (sortedAttributes (Attributes s))) +:+
                " weight=" +:+ pretty (Weight s) +:+ " ];" +:+ nl) +:+
               statementLines op after +:+ documentTail), None)) ∧
  StronglySorted keyLt (sortedAttributes (Attributes s)) ∧
  (∀ k v, (k, v) ∈ sortedAttributes (Attributes s) ↔ Attributes s !! k = Some v) ∧
  (∀ entries, entries ≡ₚ map_to_list (Attributes s) →
              sortEntries entries = sortedAttributes (Attributes s)) ∧
  (∀ k1 v1 k2 v2, k1 ≠ k2 →
     sortedAttributes (<[k1:=v1]> (<[k2:=v2]> (Attributes s))) =
     sortedAttributes (<[k2:=v2]> (<[k1:=v1]> (Attributes s)))).
Proof.
  intros Htrue. split; [intros Hprint; by apply renderDOT_edge_line |]. split.
  { apply sortEntries_strict, NoDup_map_to_list_keys. }
  split; [apply sortedAttributes_lookup |]. split.
  - intros entries Hperm. unfold sortedAttributes. symmetry.
    apply sortEntries_enumeration; [apply NoDup_map_to_list_keys | done].
  - intros k1 v1 k2 v2 Hne. by rewrite insert_insert_ne.
Qed.

Lemma attributes_rendered_in_key_order_witness :
  renderDOT (mkBuffer EmptyString)
    (mkDescription "graph" "--"
       ([] ++ mkStatement (VInt 1) (VInt 2) 5
                {[ "shape" := "box"; "color" := "red"; "Label" := "a" ]} :: [])) =
    (mkBuffer ("strict graph {" +:+ nl +:+ nl +:+ tab +:+
               "1 -- 2 [ Label=" +:+ dquote +:+ "a" +:+ dquote +:+
               ", color=" +:+ dquote +:+ "red" +:+ dquote +:+
               ", shape=" +:+ dquote +:+ "box" +:+ dquote +:+
               ",  weight=5 ];" +:+ nl +:+ nl +:+ "}" +:+ nl), None) ∧
  sortedAttributes {[ "shape" := "box"; "color" := "red"; "Label" := "a" ]} =
    [("Label", "a"); ("color", "red"); ("shape", "box")].
Proof.
  split; [| vm_compute; reflexivity].
  refine (eq_trans
    (proj1 (attributes_rendered_in_key_order "graph" "--" []
              (mkStatement (VInt 1) (VInt 2) 5
                 {[ "shape" := "box"; "color" := "red"; "Label" := "a" ]})
              [] EmptyString eq_refl) eq_refl) _).
  vm_compute. reflexivity.
Defined.

(** * Further properties of the code *)

(** ** Which flags a sequence of options sets *)

Section trait_flags.
Import graph.

Lemma options_distinct :
  Directed ≠ Acyclic ∧ Directed ≠ Weighted ∧ Directed ≠ Rooted ∧ Directed ≠ Tree ∧
  Acyclic ≠ Weighted ∧ Acyclic ≠ Rooted ∧ Acyclic ≠ Tree ∧
  Weighted ≠ Rooted ∧ Weighted ≠ Tree ∧ Rooted ≠ Tree.
Proof.
  repeat split; intros Heq;
    apply (f_equal (λ f : Traits → Traits, f defaultTraits)) in Heq;
    discriminate Heq.
Qed.

(** Reading a flag after one option and after the rest of a sequence. *)
Ltac flag_step Hf :=
  pose proof options_distinct as (? & ? & ? & ? & ? & ? & ? & ? & ? & ?);
  destruct Hf as [-> | [-> | [-> | [-> | ->]]]]; cbn;
  rewrite ?elem_of_cons; intuition congruence.

Lemma applyOptions_IsDirected opts t :
  Forall isTraitOption opts →
  IsDirected (applyOptions opts t) = true ↔ IsDirected t = true ∨ Directed ∈ opts.
Proof.
  intros Hopts. revert t. induction Hopts as [| f opts Hf _ IH]; intros t.
  - cbn. rewrite elem_of_nil. tauto.
  - rewrite applyOptions_cons, IH. flag_step Hf.
Qed.

Lemma applyOptions_IsAcyclic opts t :
  Forall isTraitOption opts →
  IsAcyclic (applyOptions opts t) = true ↔
  IsAcyclic t = true ∨ Acyclic ∈ opts ∨ Tree ∈ opts.
Proof.
  intros Hopts. revert t. induction Hopts as [| f opts Hf _ IH]; intros t.
  - cbn. rewrite !elem_of_nil. tauto.
  - rewrite applyOptions_cons, IH. flag_step Hf.
Qed.

Lemma applyOptions_IsWeighted opts t :
  Forall isTraitOption opts →
  IsWeighted (applyOptions opts t) = true ↔ IsWeighted t = true ∨ Weighted ∈ opts.
Proof.
  intros Hopts. revert t. induction Hopts as [| f opts Hf _ IH]; intros t.
  - cbn. rewrite elem_of_nil. tauto.
  - rewrite applyOptions_cons, IH. flag_step Hf.
Qed.

Lemma applyOptions_IsRooted opts t :
  Forall isTraitOption opts →
  IsRooted (applyOptions opts t) = true ↔
  IsRooted t = true ∨ Rooted ∈ opts ∨ Tree ∈ opts.
Proof.
  intros Hopts. revert t. induction Hopts as [| f opts Hf _ IH]; intros t.
  - cbn. rewrite !elem_of_nil. tauto.
  - rewrite applyOptions_cons, IH. flag_step Hf.
Qed.

(** X1: after any sequence of trait options a flag is set exactly when it
    was set before or an option that sets it occurs in the sequence:
    [Directed] for [IsDirected], [Acyclic] or [Tree] for [IsAcyclic],
    [Weighted] for [IsWeighted], [Rooted] or [Tree] for [IsRooted]. *)
Theorem applyOptions_flags (opts : list (Traits → Traits)) (t : Traits) :
  Forall isTraitOption opts →
  (IsDirected (applyOptions opts t) = true ↔
     IsDirected t = true ∨ Directed ∈ opts) ∧
  (IsAcyclic (applyOptions opts t) = true ↔
     IsAcyclic t = true ∨ Acyclic ∈ opts ∨ Tree ∈ opts) ∧
  (IsWeighted (applyOptions opts t) = true ↔
     IsWeighted t = true ∨ Weighted ∈ opts) ∧
  (IsRooted (applyOptions opts t) = true ↔
     IsRooted t = true ∨ Rooted ∈ opts ∨ Tree ∈ opts).
Proof.
  intros Hopts. split; [by apply applyOptions_IsDirected |].
  split; [by apply applyOptions_IsAcyclic |].
  split; [by apply applyOptions_IsWeighted | by apply applyOptions_IsRooted].
Qed.

Lemma applyOptions_flags_witness :
  (IsDirected (applyOptions [Tree; Weighted] defaultTraits) = true ↔
     IsDirected defaultTraits = true ∨ Directed ∈ [Tree; Weighted]) ∧
  (IsAcyclic (applyOptions [Tree; Weighted] defaultTraits) = true ↔
     IsAcyclic defaultTraits = true ∨ Acyclic ∈ [Tree; Weighted] ∨
     Tree ∈ [Tree; Weighted]) ∧
  (IsWeighted (applyOptions [Tree; Weighted] defaultTraits) = true ↔
     IsWeighted defaultTraits = true ∨ Weighted ∈ [Tree; Weighted]) ∧
  (IsRooted (applyOptions [Tree; Weighted] defaultTraits) = true ↔
     IsRooted defaultTraits = true ∨ Rooted ∈ [Tree; Weighted] ∨
     Tree ∈ [Tree; Weighted]).
Proof.
  apply (applyOptions_flags [Tree; Weighted] defaultTraits).
  repeat (constructor; [unfold isTraitOption; auto 10 |]). constructor.
Defined.

End trait_flags.

(** ** The export as a whole *)

Section export_properties.
Context {K G : Type} `{comparable K} `{Graph.Interface K G}.

Lemma generateDOT_header (g : G) :
  GraphType (generateDOT g).1 = graphTypeOf g ∧
  EdgeOperator (generateDOT g).1 = edgeOperatorOf g.
Proof.
  destruct (Graph.AdjacencyMap g) as [adj [err |]] eqn:Hadj.
  - by rewrite (generateDOT_error g adj err Hadj).
  - by rewrite (generateDOT_ok g adj Hadj).
Qed.

(** X2: for a graph whose traits are the default traits with a sequence of
    trait options applied, the description is a [digraph] with operator
    [->] exactly when [Directed] is among the options, and a [graph] with
    operator [--] otherwise; no other option touches the header. *)
Theorem graph_type_follows_Directed_option
    (g : G) (opts : list (graph.Traits → graph.Traits)) :
  Forall graph.isTraitOption opts →
  Graph.Traits g = graph.applyOptions opts graph.defaultTraits →
  (graph.Directed ∈ opts →
     GraphType (generateDOT g).1 = "digraph" ∧ EdgeOperator (generateDOT g).1 = "->") ∧
  (graph.Directed ∉ opts →
     GraphType (generateDOT g).1 = "graph" ∧ EdgeOperator (generateDOT g).1 = "--").
Proof.
  intros Hopts Htraits.
  destruct (generateDOT_header g) as [-> ->].
  unfold graphTypeOf, edgeOperatorOf. rewrite Htraits.
  pose proof (applyOptions_IsDirected opts graph.defaultTraits Hopts) as Hflag.
  split; intros Hin.
  - assert (graph.IsDirected (graph.applyOptions opts graph.defaultTraits) = true)
      as -> by (apply Hflag; by right).
    done.
  - destruct (graph.IsDirected (graph.applyOptions opts graph.defaultTraits)) eqn:Hd;
      [| done].
    destruct (proj1 Hflag eq_refl) as [Hdef | Hdir]; [discriminate Hdef | contradiction].
Qed.

(** X3: when the adjacency map is read, [DOT] issues the writes of the
    document in order against the sink; an error it returns is the error
    of the first rejected [Write], as the sink gave it, or, every write
    accepted, the error of the template engine for a key that cannot be
    printed; no message of [DOT] is added, and the sink is left as the
    last write left it, with everything written before still in it.  When
    every key can be printed the writes are those of the whole document
    and an error is one of the sink. *)
Theorem DOT_returns_sink_error {W} `{Writer W} (g : G) (w : W) adj :
  Graph.AdjacencyMap g = (adj, None) →
  DOT g w =
    finishRun
      (writeAll w (documentWrites
         (mkDescription (graphTypeOf g) (edgeOperatorOf g) (expectedStatements adj))))
      (documentError
         (mkDescription (graphTypeOf g) (edgeOperatorOf g) (expectedStatements adj))) ∧
  (∀ w' e, DOT g w = (w', Some e) →
     (∃ written chunk rest w0,
        documentWrites
          (mkDescription (graphTypeOf g) (edgeOperatorOf g) (expectedStatements adj)) =
          written ++ chunk :: rest ∧
        writeAll w written = (w0, None) ∧
        Write w0 chunk = (w', Some e)) ∨
     (e = errCantPrint ∧
      printableStatements (expectedStatements adj) = false ∧
      writeAll w (documentWrites
        (mkDescription (graphTypeOf g) (edgeOperatorOf g) (expectedStatements adj))) =
        (w', None))) ∧
  (printableStatements (expectedStatements adj) = true →
   DOT g w =
     writeAll w (documentChunks
       (mkDescription (graphTypeOf g) (edgeOperatorOf g) (expectedStatements adj))) ∧
   ∀ w' e, DOT g w = (w', Some e) →
     ∃ written chunk rest w0,
       documentChunks
         (mkDescription (graphTypeOf g) (edgeOperatorOf g) (expectedStatements adj)) =
         written ++ chunk :: rest ∧
       writeAll w written = (w0, None) ∧
       Write w0 chunk = (w', Some e)).
Proof.
  intros Hadj. rewrite (DOT_ok g w adj Hadj). split; [apply renderDOT_run |]. split.
  - intros w' e. rewrite renderDOT_run. apply finishRun_error.
  - intros Hprint. rewrite renderDOT_writes by done.
    split; [done |]. intros w' e. apply writeAll_error.
Qed.

(** X4: the export reads no trait but [IsDirected]: two graphs with the
    same adjacency map get the same statements whatever their traits (an
    undirected graph gets no reverse statements and a graph that is not
    weighted still gets its weights), and when they agree on [IsDirected]
    the descriptions and everything [DOT] writes are the same. *)
Theorem export_reads_only_IsDirected {W} `{Writer W} (g1 g2 : G) (w : W) :
  Graph.AdjacencyMap g1 = Graph.AdjacencyMap g2 →
  Statements (generateDOT g1).1 = Statements (generateDOT g2).1 ∧
  (graph.IsDirected (Graph.Traits g1) = graph.IsDirected (Graph.Traits g2) →
   generateDOT g1 = generateDOT g2 ∧ DOT g1 w = DOT g2 w).
Proof.
  intros Hadj.
  destruct (Graph.AdjacencyMap g2) as [adj [err |]] eqn:Hadj2.
  - rewrite (generateDOT_error g1 adj err Hadj), (generateDOT_error g2 adj err Hadj2).
    split; [done |]. intros Hdir. unfold DOT.
    rewrite (generateDOT_error g1 adj err Hadj), (generateDOT_error g2 adj err Hadj2).
    unfold graphTypeOf, edgeOperatorOf. by rewrite Hdir.
  - rewrite (generateDOT_ok g1 adj Hadj), (generateDOT_ok g2 adj Hadj2).
    split; [done |]. intros Hdir.
    rewrite (DOT_ok g1 w adj Hadj), (DOT_ok g2 w adj Hadj2).
    unfold graphTypeOf, edgeOperatorOf. by rewrite Hdir.
Qed.

(** X5: for a graph without vertices the description has no statements and
    the document is the header line, an empty line and the closing brace. *)
Theorem DOT_empty_graph (g : G) (b : string) :
  Graph.AdjacencyMap g = ([], None) →
  Statements (generateDOT g).1 = [] ∧
  DOT g (mkBuffer b) =
    (mkBuffer (b +:+ "strict " +:+ graphTypeOf g +:+ " {" +:+ nl +:+ nl +:+ "}" +:+ nl),
     None).
Proof.
  intros Hadj. rewrite (generateDOT_ok g [] Hadj). split; [done |].
  rewrite (DOT_ok g _ [] Hadj), renderDOT_Buffer by done.
  unfold documentText, documentHead, documentTail. cbn [GraphType Statements].
  change (statementLines _ (expectedStatements [])) with EmptyString.
  by rewrite !string_app_assoc.
Qed.

End export_properties.

Lemma graph_type_follows_Directed_option_witness :
  (graph.Directed ∈ [graph.Directed; graph.Tree; graph.Weighted] →
     GraphType (generateDOT sampleDirectedTree).1 = "digraph" ∧
     EdgeOperator (generateDOT sampleDirectedTree).1 = "->") ∧
  (graph.Directed ∉ [graph.Directed; graph.Tree; graph.Weighted] →
     GraphType (generateDOT sampleDirectedTree).1 = "graph" ∧
     EdgeOperator (generateDOT sampleDirectedTree).1 = "--").
Proof.
  apply (graph_type_follows_Directed_option sampleDirectedTree
           [graph.Directed; graph.Tree; graph.Weighted]).
  - repeat (constructor; [unfold graph.isTraitOption; auto 10 |]). constructor.
  - reflexivity.
Defined.

Lemma DOT_returns_sink_error_witness :
  DOT sampleUndirected (mkLimitedSink EmptyString 20) =
    (mkLimitedSink ("strict graph {" +:+ nl +:+ nl +:+ tab +:+ "1 ") 1,
     Some errNoSpace) ∧
  DOT channelGraph (mkLimitedSink EmptyString 20) =
    (mkLimitedSink ("strict graph {" +:+ nl +:+ nl +:+ tab) 3, Some errCantPrint).
Proof.
  split.
  - refine (eq_trans
      (proj1 (DOT_returns_sink_error sampleUndirected (mkLimitedSink EmptyString 20)
                sampleAdjacency eq_refl)) _).
    vm_compute. reflexivity.
  - refine (eq_trans
      (proj1 (DOT_returns_sink_error channelGraph (mkLimitedSink EmptyString 20)
                channelAdjacency eq_refl)) _).
    vm_compute. reflexivity.
Defined.

Lemma export_reads_only_IsDirected_witness :
  Statements (generateDOT sampleDirected).1 =
    Statements (generateDOT sampleDirectedTree).1 ∧
  (graph.IsDirected (Graph.Traits sampleDirected) =
   graph.IsDirected (Graph.Traits sampleDirectedTree) →
   generateDOT sampleDirected = generateDOT sampleDirectedTree ∧
   DOT sampleDirected (mkBuffer EmptyString) =
   DOT sampleDirectedTree (mkBuffer EmptyString)).
Proof.
  exact (export_reads_only_IsDirected sampleDirected sampleDirectedTree
           (mkBuffer EmptyString) eq_refl).
Defined.

Lemma DOT_empty_graph_witness :
  Statements (generateDOT emptyGraph).1 = [] ∧
  DOT emptyGraph (mkBuffer EmptyString) =
    (mkBuffer ("strict graph {" +:+ nl +:+ nl +:+ "}" +:+ nl), None).
Proof. exact (DOT_empty_graph emptyGraph EmptyString eq_refl). Defined.

(** ** The order of the adjacency map *)

Section map_order.
Context {K G : Type} `{comparable K} `{Graph.Interface K G}.

Lemma vertexStatements_Permutation (v : K) (adjs adjs' : list (K * graph.Edge K)) :
  adjs ≡ₚ adjs' → vertexStatements (v, adjs) ≡ₚ vertexStatements (v, adjs').
Proof.
  intros Hperm. destruct adjs as [| e adjs], adjs' as [| e' adjs'].
  - done.
  - by apply Permutation_nil_cons in Hperm.
  - symmetry in Hperm. by apply Permutation_nil_cons in Hperm.
  - unfold vertexStatements. cbn [snd fst]. by apply Permutation_map.
Qed.

Lemma expectedStatements_Permutation (adj adj' : Graph.adjacencyMap K) :
  adj ≡ₚ adj' → expectedStatements adj ≡ₚ expectedStatements adj'.
Proof.
  unfold expectedStatements.
  induction 1 as [| e l l' _ IH | e1 e2 l | l l' l'' _ IH1 _ IH2]; cbn [flat_map].
  - done.
  - by rewrite IH.
  - rewrite !app_assoc. f_equiv. apply Permutation_app_comm.
  - by rewrite IH1.
Qed.

Lemma expectedStatements_Forall2 (adj adj' : Graph.adjacencyMap K) :
  Forall2 (λ e1 e2, fst e1 = fst e2 ∧ snd e1 ≡ₚ snd e2) adj adj' →
  expectedStatements adj ≡ₚ expectedStatements adj'.
Proof.
  unfold expectedStatements.
  induction 1 as [| [v adjs] [v' adjs'] l l' [Hv Hadjs] _ IH]; [done |].
  cbn [flat_map]. cbn [fst snd] in Hv, Hadjs. subst v'.
  by rewrite IH, (vertexStatements_Permutation v adjs adjs').
Qed.


(** The lines of the statements of a map whose adjacent vertices are all
    taken as true. *)
Lemma statementLines_entries (op : string) (adj : Graph.adjacencyMap K) :
  targetsTrue adj →
  statementLines op (expectedStatements adj) =
  concatChunks (flat_map (entryLines op) adj).
Proof.
  unfold targetsTrue, expectedStatements.
  induction 1 as [| [v adjs] adj Htrue _ IH]; [done |].
  cbn [flat_map]. rewrite statementLines_app, concatChunks_app, IH. f_equal.
  cbn [snd] in Htrue. destruct adjs as [| e adjs].
  - unfold statementLines. cbn. by rewrite !string_app_nil_r.
  - unfold vertexStatements, entryLines, statementLines. cbn [snd fst]. f_equal.
    generalize (e :: adjs) Htrue. clear. intros adjs Htrue.
    induction Htrue as [| e adjs He _ IH]; [done |].
    cbn [map]. rewrite IH. f_equal.
    unfold statementLine, edgeStatement. cbn [Target]. by rewrite He.
Qed.

(** X7: when every key of the map can be printed and every adjacent
    vertex is a key the template takes as true, the document [DOT] writes
    is the header, then for every vertex in map order one line
    [source op target [ attributes weight=w ];] per adjacency entry, in
    entry order, or the line [source ;] when it has no entry, and then the
    closing brace. *)
Theorem DOT_document_of_adjacency (g : G) adj (b : string) :
  Graph.AdjacencyMap g = (adj, None) →
  printableStatements (expectedStatements adj) = true →
  targetsTrue adj →
  DOT g (mkBuffer b) =
    (mkBuffer (b +:+ documentHead (graphTypeOf g) +:+
               concatChunks (flat_map (entryLines (edgeOperatorOf g)) adj) +:+
               documentTail), None).
Proof.
  intros Hadj Hprint Htrue. rewrite (DOT_ok g _ adj Hadj), renderDOT_Buffer by done.
  unfold documentText. cbn [GraphType EdgeOperator Statements].
  by rewrite statementLines_entries.
Qed.

End map_order.

(** X8: in a description whose keys can be printed, the bracket clause of
    an edge line is [[  weight=w ]] when the statement has no attribute,
    and [[ k="v",  weight=w ]] when it has the single attribute [k] with
    value [v]: the weight is always written, and key and value are written
    as they are. *)
Theorem edge_line_attribute_clause gt op before s after b :
  printableStatements (before ++ s :: after) = true →
  isTrue (Target s) = true →
  (Attributes s = ∅ →
   renderDOT (mkBuffer b) (mkDescription gt op (before ++ s :: after)) =
     (mkBuffer (b +:+ documentHead gt +:+ statementLines op before +:+
                (nl +:+ tab +:+ displayText (Source s) +:+ " " +:+ op +:+ " " +:+
                 displayText (Target s) +:+ " [  weight=" +:+ pretty (Weight s) +:+
                 " ];" +:+ nl) +:+
                statementLines op after +:+ documentTail), None)) ∧
  (∀ k v, Attributes s = {[ k := v ]} →
   renderDOT (mkBuffer b) (mkDescription gt op (before ++ s :: after)) =
     (mkBuffer (b +:+ documentHead gt +:+ statementLines op before +:+
                (nl +:+ tab +:+ displayText (Source s) +:+ " " +:+ op +:+ " " +:+
                 displayText (Target s) +:+ " [ " +:+ k +:+ "=" +:+ dquote +:+ v +:+
                 dquote +:+ ",  weight=" +:+ pretty (Weight s) +:+ " ];" +:+ nl) +:+
                statementLines op after +:+ documentTail), None)).
Proof.
  intros Hprint Htrue. split.
  - intros Hattrs. rewrite (renderDOT_edge_line _ _ _ _ _ _ Hprint Htrue).
    unfold edgeLine, attributesText, sortedAttributes.
    rewrite Hattrs, map_to_list_empty. reflexivity.
  - intros k v Hattrs. rewrite (renderDOT_edge_line _ _ _ _ _ _ Hprint Htrue).
    unfold edgeLine, attributesText, sortedAttributes.
    rewrite Hattrs, map_to_list_singleton. cbn [sortEntries map fst snd].
    change (sortEntries [(k, v)]) with [(k, v)]. cbn [map fst snd].
    rewrite concatChunks_cons. change (concatChunks []) with EmptyString.
    by rewrite string_app_nil_r, !string_app_assoc.
Qed.

Lemma sampleAdjacency_shuffled : sameAdjacency sampleAdjacency sampleAdjacencyShuffled.
Proof.
  exists [(4, []); (2, []);
          (1, [(2, plainEdge 1 2 5 {[ "color" := "red" ]}); (3, plainEdge 1 3 0 ∅)]);
          (3, [])].
  split.
  - unfold sampleAdjacency.
    etrans; [apply (Permutation_app_comm [_; _; _] [_]) |].
    cbn [app]. apply perm_skip. apply perm_swap.
  - unfold sampleAdjacencyShuffled. repeat constructor.
Defined.


Lemma DOT_document_of_adjacency_witness :
  DOT sampleDirected (mkBuffer EmptyString) =
    (mkBuffer (EmptyString +:+ documentHead (graphTypeOf sampleDirected) +:+
               concatChunks (flat_map (entryLines (edgeOperatorOf sampleDirected))
                                      sampleAdjacency) +:+
               documentTail), None).
Proof.
  apply (DOT_document_of_adjacency sampleDirected sampleAdjacency EmptyString).
  - reflexivity.
  - reflexivity.
  - unfold targetsTrue, sampleAdjacency.
    repeat (constructor; [repeat (constructor; [reflexivity |]); constructor |]).
    constructor.
Defined.

Lemma edge_line_attribute_clause_witness :
  renderDOT (mkBuffer EmptyString)
    (mkDescription "graph" "--" ([] ++ mkStatement (VInt 1) (VInt 2) 5 ∅ :: [])) =
    (mkBuffer ("strict graph {" +:+ nl +:+ nl +:+ tab +:+ "1 -- 2 [  weight=5 ];" +:+
               nl +:+ nl +:+ "}" +:+ nl), None) ∧
  renderDOT (mkBuffer EmptyString)
    (mkDescription "graph" "--"
       ([] ++ mkStatement (VInt 1) (VInt 2) 5 {[ "color" := "red" ]} :: [])) =
    (mkBuffer ("strict graph {" +:+ nl +:+ nl +:+ tab +:+ "1 -- 2 [ color=" +:+
               dquote +:+ "red" +:+ dquote +:+ ",  weight=5 ];" +:+
               nl +:+ nl +:+ "}" +:+ nl), None).
Proof.
  split.
  - exact (proj1 (edge_line_attribute_clause "graph" "--" []
                    (mkStatement (VInt 1) (VInt 2) 5 ∅) [] EmptyString eq_refl
                    eq_refl)
                 eq_refl).
  - exact (proj2 (edge_line_attribute_clause "graph" "--" []
                    (mkStatement (VInt 1) (VInt 2) 5 {[ "color" := "red" ]}) []
                    EmptyString eq_refl eq_refl)
                 "color" "red" eq_refl).
Defined.
